(** * Room synchronisation server of the realtime canvas (server/index.js)

    A shallow embedding of the Socket.IO handlers of [server/index.js]:
    the in-memory room registry [rooms], [ensureRoom], and the handlers
    for [join-room], [add-action], [update-action], [undo-action],
    [redo-action] and [disconnect].  Handlers are state transformers that
    also return the list of emissions they perform; a handler that would
    raise a JavaScript [TypeError] returns [None]. *)

From stdpp Require Import gmap strings list fin_maps pretty.

Local Set Warnings "-register-all".
Local Open Scope string_scope.

(** ** JavaScript values *)

Module JS.

(** Primitive values that a JSON message can carry, plus [undefined] for a
    field that is missing.  Numbers are the integer-valued ones. *)
Inductive prim : Type :=
  | PUndefined
  | PNull
  | PBool (b : bool)
  | PNum (n : Z)
  | PStr (s : string).

#[global] Instance prim_eq_dec : EqDecision prim.
Proof. solve_decision. Defined.

#[global] Instance prim_countable : Countable prim.
Proof.
  refine (inj_countable'
    (λ p, match p with
          | PUndefined => inl (inl false)
          | PNull => inl (inl true)
          | PBool b => inl (inr b)
          | PNum n => inr (inl n)
          | PStr s => inr (inr s)
          end)
    (λ x, match x with
          | inl (inl false) => PUndefined
          | inl (inl true) => PNull
          | inl (inr b) => PBool b
          | inr (inl n) => PNum n
          | inr (inr s) => PStr s
          end) _).
  by intros [].
Defined.

(** A value is a primitive or a plain object, i.e. a finite map from
    property names to values. *)
Inductive jsval : Type :=
  | JPrim (p : prim)
  | JObj (o : gmap string jsval).

(** Plain objects: actions and structured payloads. *)
Abbreviation obj := (gmap string jsval).

(** [!v] is [negb (truthy v)]: the falsy primitives are [undefined],
    [null], [false], [0] and the empty string. *)
Definition truthy (p : prim) : bool :=
  match p with
  | PUndefined | PNull => false
  | PBool b => b
  | PNum n => negb (n =? 0)%Z
  | PStr s => negb (String.eqb s "")
  end.

(** Every object is truthy. *)
Definition truthy_val (v : jsval) : bool :=
  match v with
  | JPrim p => truthy p
  | JObj _ => true
  end.

(** [v === p] for a stored value [v] and a primitive [p] taken from an
    incoming message: primitives compare by value, an object is never
    identical to a primitive. *)
Definition strict_eq (v : jsval) (p : prim) : bool :=
  match v with
  | JPrim q => bool_decide (q = p)
  | JObj _ => false
  end.

(** [String(p)], the coercion applied to a property key in [rooms[roomId]]. *)
Definition to_key (p : prim) : string :=
  match p with
  | PUndefined => "undefined"
  | PNull => "null"
  | PBool true => "true"
  | PBool false => "false"
  | PNum n => pretty n
  | PStr s => s
  end.

(** [o.k]: reading a property that is absent yields [undefined]. *)
Definition field (o : obj) (k : string) : jsval :=
  default (JPrim PUndefined) (o !! k).

(** Index properties of a string: ["ab"] has ["0"] and ["1"]. *)
Fixpoint string_props (i : nat) (s : string) : obj :=
  match s with
  | EmptyString => ∅
  | String c s' =>
      <[pretty i := JPrim (PStr (String c EmptyString))]> (string_props (S i) s')
  end.

(** The own enumerable properties copied by an object spread [{...v}]:
    those of an object, the index properties of a string, and none for
    the other primitives. *)
Definition own_props (v : jsval) : obj :=
  match v with
  | JObj o => o
  | JPrim (PStr s) => string_props 0 s
  | JPrim _ => ∅
  end.

(** [{ ...a, ...b }]: the properties of [b] win over those of [a]. *)
Definition spread2 (a b : jsval) : jsval :=
  JObj (own_props b ∪ own_props a).

(** [arr.findIndex(p)] with [None] for [-1]. *)
Fixpoint findIndex {A} (p : A → bool) (l : list A) : option nat :=
  match l with
  | [] => None
  | x :: l' => if p x then Some 0 else S <$> findIndex p l'
  end.

(** Names that every object literal inherits from [Object.prototype]:
    [({})[k]] is a truthy value for each of them. *)
Definition object_prototype_keys : list string :=
  [ "constructor"; "__proto__"; "hasOwnProperty"; "isPrototypeOf";
    "propertyIsEnumerable"; "toLocaleString"; "toString"; "valueOf";
    "__defineGetter__"; "__defineSetter__"; "__lookupGetter__";
    "__lookupSetter__" ].

End JS.
Export JS.

(** Socket identifiers ([socket.id]). *)
Abbreviation sid := string (only parsing).

(** ** Wire events sent by the server *)

Inductive event : Type :=
  | room_state (roomId : prim) (actions : list obj) (participants : list prim)
  | user_joined (userId : prim)
  | action_added (action : obj)
  | update_denied (actionId : prim) (reason : string)
  | action_updated (actionId : prim) (data : jsval)
  | undo_denied (actionId : prim) (reason : string)
  | action_undone (actionId userId : prim)
  | redo_denied (actionId : prim) (reason : string)
  | action_redone (actionId userId : prim)
  | user_left (userId : prim).

(** One call of [emit]: the event and the sockets it is delivered to. *)
Record emission : Type := Emit { recipients : gset sid; payload : event }.

(** ** Socket.IO rooms

    The transport keeps, for every room name, the set of sockets that
    joined it.  [socket.emit] reaches the socket itself, [socket.to(r).emit]
    every socket of [r] but the sender, [io.to(r).emit] every socket of [r];
    a socket that disconnects has left all its rooms before its
    [disconnect] handler runs. *)

Module SocketIO.

Definition members (io : gmap prim (gset sid)) (r : prim) : gset sid :=
  default ∅ (io !! r).

Definition join (r : prim) (s : sid) (io : gmap prim (gset sid))
  : gmap prim (gset sid) :=
  <[r := {[s]} ∪ members io r]> io.

Definition leave_all (s : sid) (io : gmap prim (gset sid))
  : gmap prim (gset sid) :=
  (λ ms, ms ∖ {[s]}) <$> io.

Definition socket_emit (s : sid) (e : event) : emission :=
  Emit {[s]} e.

Definition socket_to (io : gmap prim (gset sid)) (s : sid) (r : prim)
    (e : event) : emission :=
  Emit (members io r ∖ {[s]}) e.

Definition io_to (io : gmap prim (gset sid)) (r : prim) (e : event)
  : emission :=
  Emit (members io r) e.

End SocketIO.
Export SocketIO.

(** ** A JavaScript [Map] from socket ids to user ids, in insertion order *)

Module UserMap.

Fixpoint set (k : sid) (v : prim) (m : list (sid * prim)) : list (sid * prim) :=
  match m with
  | [] => [(k, v)]
  | (k', v') :: m' =>
      if decide (k' = k) then (k, v) :: m' else (k', v') :: set k v m'
  end.

Fixpoint get (k : sid) (m : list (sid * prim)) : option prim :=
  match m with
  | [] => None
  | (k', v') :: m' => if decide (k' = k) then Some v' else get k m'
  end.

Definition has (k : sid) (m : list (sid * prim)) : bool :=
  bool_decide (is_Some (get k m)).

Fixpoint delete (k : sid) (m : list (sid * prim)) : list (sid * prim) :=
  match m with
  | [] => []
  | (k', v') :: m' =>
      if decide (k' = k) then m' else (k', v') :: delete k m'
  end.

(** [Array.from(m.values())] *)
Definition values (m : list (sid * prim)) : list prim := snd <$> m.

End UserMap.

(** ** Server state *)

(** One entry of [rooms]:
    [{ actions: [], clients: Set(socketId), users: Map(socketId -> userId) }] *)
Record room : Type := Room {
  actions : list obj;
  clients : gset sid;
  users : list (sid * prim)
}.

(** The properties the handlers store on a socket object. *)
Record socket_props : Type := SocketProps {
  sock_roomId : prim;
  sock_userId : prim
}.

Record server : Type := Server {
  rooms : gmap string room;
  sockets : gmap sid socket_props;
  io_rooms : gmap prim (gset sid)
}.

Definition init : server := Server ∅ ∅ ∅.

(** [socket.roomId], [undefined] until [join-room] has set it. *)
Definition socket_roomId (s : server) (k : sid) : prim :=
  match sockets s !! k with
  | Some p => sock_roomId p
  | None => PUndefined
  end.

(** What [rooms[k]] evaluates to: a room stored under [k], a value
    inherited from [Object.prototype] (truthy, but not a room), or
    [undefined]. *)
Inductive slot : Type :=
  | Own (r : room)
  | Inherited
  | Missing.

Definition slot_truthy (sl : slot) : bool :=
  match sl with
  | Own _ | Inherited => true
  | Missing => false
  end.

Definition rooms_get (rs : gmap string room) (k : string) : slot :=
  match rs !! k with
  | Some r => Own r
  | None => if decide (k ∈ object_prototype_keys) then Inherited else Missing
  end.

Definition empty_room : room := Room [] ∅ [].

(** [ensureRoom(roomId)] *)
Definition ensureRoom (roomId : prim) (rs : gmap string room)
  : gmap string room * slot :=
  let k := to_key roomId in
  if negb (slot_truthy (rooms_get rs k))
  then (<[k := empty_room]> rs, Own empty_room)
  else (rs, rooms_get rs k).

(** The state of the room named [k]: the stored one, or the empty room
    that [ensureRoom] would allocate for a name not used so far. *)
Definition room_at (rs : gmap string room) (k : string) : room :=
  default empty_room (rs !! k).

(** The action log of the room named [k]. *)
Definition log_at (rs : gmap string room) (k : string) : list obj :=
  actions (room_at rs k).

(** The log of the room a socket is bound to. *)
Definition log_of (s : server) (k : sid) : list obj :=
  log_at (rooms s) (to_key (socket_roomId s k)).

(** ** Handlers *)

Abbreviation result := (option (server * list emission)).

(** [socket.on('join-room', ({ roomId, userId }) => ...)]; [uuid] is the
    value [uuidv4()] returns if it is called. *)
Definition on_join_room (k : sid) (uuid : string) (roomId userId : prim)
    (s : server) : result :=
  let roomId := if negb (truthy roomId) then PStr uuid else roomId in
  let io := join roomId k (io_rooms s) in
  let socks := <[k := SocketProps roomId userId]> (sockets s) in
  match ensureRoom roomId (rooms s) with
  | (rs, Own room) =>
      let cl := {[k]} ∪ clients room in
      let us := if truthy userId then UserMap.set k userId (users room)
                else users room in
      let room := Room (actions room) cl us in
      Some (Server (<[to_key roomId := room]> rs) socks io,
            [ socket_emit k
                (room_state roomId (actions room) (UserMap.values (users room)));
              socket_to io k roomId (user_joined userId) ])
  | (_, _) => None
  end.

(** [socket.on('add-action', (action) => ...)] *)
Definition on_add_action (k : sid) (action : obj) (s : server) : result :=
  let roomId := socket_roomId s k in
  match ensureRoom roomId (rooms s) with
  | (rs, sl) =>
      if negb (slot_truthy sl) then Some (Server rs (sockets s) (io_rooms s), [])
      else match sl with
      | Own room =>
          let room := Room (actions room ++ [action])%list (clients room) (users room) in
          Some (Server (<[to_key roomId := room]> rs) (sockets s) (io_rooms s),
                [ socket_to (io_rooms s) k roomId (action_added action) ])
      | _ => None
      end
  end.

(** The part shared by the three owner-gated handlers: look the action
    up with [findIndex], compare owners, then either deny or store the
    mutated action and broadcast. *)
Definition gated (k : sid) (actionId userId : prim)
    (denied : event) (mutate : obj → obj) (done : obj → event)
    (s : server) : result :=
  let roomId := socket_roomId s k in
  match ensureRoom roomId (rooms s) with
  | (rs, sl) =>
      if negb (slot_truthy sl) then Some (Server rs (sockets s) (io_rooms s), [])
      else match sl with
      | Own room =>
          match findIndex (λ a, strict_eq (field a "id") actionId) (actions room) with
          | None => Some (Server rs (sockets s) (io_rooms s), [])
          | Some idx =>
              match actions room !! idx with
              | None => None
              | Some action =>
                  if negb (strict_eq (field action "userId") userId)
                  then Some (Server rs (sockets s) (io_rooms s),
                             [ socket_emit k denied ])
                  else
                    let action := mutate action in
                    let room := Room (<[idx := action]> (actions room))
                                     (clients room) (users room) in
                    Some (Server (<[to_key roomId := room]> rs)
                                 (sockets s) (io_rooms s),
                          [ io_to (io_rooms s) roomId (done action) ])
              end
          end
      | _ => None
      end
  end.

(** [action.data = replace ? data : { ...action.data, ...data }] *)
Definition update_data (data replace : jsval) (action : obj) : obj :=
  <["data" := if truthy_val replace then data
              else spread2 (field action "data") data]> action.

(** [socket.on('update-action', ({ actionId, data, replace, userId }) => ...)] *)
Definition on_update_action (k : sid) (actionId : prim) (data replace : jsval)
    (userId : prim) : server → result :=
  gated k actionId userId
    (update_denied actionId "not-owner")
    (update_data data replace)
    (λ action, action_updated actionId (field action "data")).

(** [action.undone = b] *)
Definition set_undone (b : bool) (action : obj) : obj :=
  <["undone" := JPrim (PBool b)]> action.

(** [socket.on('undo-action', ({ actionId, userId }) => ...)] *)
Definition on_undo_action (k : sid) (actionId userId : prim)
  : server → result :=
  gated k actionId userId
    (undo_denied actionId "not-owner")
    (set_undone true)
    (λ _, action_undone actionId userId).

(** [socket.on('redo-action', ({ actionId, userId }) => ...)] *)
Definition on_redo_action (k : sid) (actionId userId : prim)
  : server → result :=
  gated k actionId userId
    (redo_denied actionId "not-owner")
    (set_undone false)
    (λ _, action_redone actionId userId).

(** [socket.on('disconnect', () => ...)] *)
Definition on_disconnect (k : sid) (s : server) : result :=
  let io := leave_all k (io_rooms s) in
  let roomId := socket_roomId s k in
  if negb (truthy roomId) then Some (Server (rooms s) (sockets s) io, [])
  else
    let sl := rooms_get (rooms s) (to_key roomId) in
    if negb (slot_truthy sl) then Some (Server (rooms s) (sockets s) io, [])
    else match sl with
    | Own room =>
        let cl := clients room ∖ {[k]} in
        if UserMap.has k (users room) then
          let userId := default PUndefined (UserMap.get k (users room)) in
          let room := Room (actions room) cl (UserMap.delete k (users room)) in
          Some (Server (<[to_key roomId := room]> (rooms s)) (sockets s) io,
                [ socket_to io k roomId (user_left userId) ])
        else
          let room := Room (actions room) cl (users room) in
          Some (Server (<[to_key roomId := room]> (rooms s)) (sockets s) io, [])
    | _ => None
    end.

(** ** Runs of the server *)

(** A message received from socket [k], or its disconnection. *)
Inductive input : Type :=
  | JoinRoom (k : sid) (uuid : string) (roomId userId : prim)
  | AddAction (k : sid) (action : obj)
  | UpdateAction (k : sid) (actionId : prim) (data replace : jsval) (userId : prim)
  | UndoAction (k : sid) (actionId userId : prim)
  | RedoAction (k : sid) (actionId userId : prim)
  | Disconnect (k : sid).

Definition step (i : input) (s : server) : result :=
  match i with
  | JoinRoom k uuid roomId userId => on_join_room k uuid roomId userId s
  | AddAction k action => on_add_action k action s
  | UpdateAction k actionId data replace userId =>
      on_update_action k actionId data replace userId s
  | UndoAction k actionId userId => on_undo_action k actionId userId s
  | RedoAction k actionId userId => on_redo_action k actionId userId s
  | Disconnect k => on_disconnect k s
  end.

(** Handlers run one after the other; an uncaught [TypeError] ends the run. *)
Fixpoint run (ins : list input) (s : server) : result :=
  match ins with
  | [] => Some (s, [])
  | i :: ins' =>
      match step i s with
      | None => None
      | Some (s1, out1) =>
          match run ins' s1 with
          | None => None
          | Some (s2, out2) => Some (s2, (out1 ++ out2)%list)
          end
      end
  end.

(** States the server can be in. *)
Inductive reachable : server → Prop :=
  | reach_init : reachable init
  | reach_step i s s' out :
      reachable s → step i s = Some (s', out) → reachable s'.

(** ** Vocabulary of the properties *)

(** The room name a [join-room] message ends up with. *)
Definition joined_roomId (uuid : string) (roomId : prim) : prim :=
  if negb (truthy roomId) then PStr uuid else roomId.

(** The registry holds no room under an inherited name, and no socket is
    bound to one: a [join-room] for such a name raises before it returns. *)
Definition keys_ok (s : server) : Prop :=
  (∀ k, to_key (socket_roomId s k) ∉ object_prototype_keys) ∧
  (∀ key, key ∈ object_prototype_keys → rooms s !! key = None).

(** An entry and its later version agree on every property except
    [data] and [undone]. *)
Definition stable (a a' : obj) : Prop :=
  ∀ f, f ≠ "data" → f ≠ "undone" → a' !! f = a !! f.

(** The three ways one handler call changes a log. *)
Inductive log_step (l : list obj) : list obj → Prop :=
  | log_same : log_step l l
  | log_push a : log_step l (l ++ [a])
  | log_mutate idx a a' :
      l !! idx = Some a → stable a a' → log_step l (<[idx := a']> l).

(** [l'] is [l] with entries mutated in place, followed by new entries. *)
Definition log_extends (l l' : list obj) : Prop :=
  ∃ l1 l2, l' = (l1 ++ l2)%list ∧ Forall2 stable l l1.

(** [with_entry s k idx a'] is [s] with entry [idx] of the log of the room
    of socket [k] replaced by [a']. *)
Definition with_entry (s : server) (k : sid) (idx : nat) (a' : obj) : server :=
  let key := to_key (socket_roomId s k) in
  let rm := room_at (rooms s) key in
  Server (<[key := Room (<[idx := a']> (actions rm)) (clients rm) (users rm)]>
            (rooms s))
         (sockets s) (io_rooms s).

(** ** A sample session

    Socket [s1] joins room [R1] as user [A] and draws [a1]; socket [s2]
    joins the same room as user [B]. *)

Definition a1 : obj :=
  {[ "id" := JPrim (PStr "a1"); "userId" := JPrim (PStr "A");
     "data" := JObj {[ "x" := JPrim (PNum 1); "y" := JPrim (PNum 2) ]};
     "undone" := JPrim (PBool false) ]}.

Definition demo_inputs : list input :=
  [ JoinRoom "s1" "uuid-1" (PStr "R1") (PStr "A");
    AddAction "s1" a1;
    JoinRoom "s2" "uuid-2" (PStr "R1") (PStr "B") ].

Definition demo : server :=
  Server {[ "R1" := Room [a1] {[ "s1"; "s2" ]}
                         [ ("s1", PStr "A"); ("s2", PStr "B") ] ]}
         {[ "s1" := SocketProps (PStr "R1") (PStr "A");
            "s2" := SocketProps (PStr "R1") (PStr "B") ]}
         {[ PStr "R1" := {[ "s1"; "s2" ]} ]}.


(** After a second socket [s2] has joined [R1] as the same user [A]. *)
Definition two_tabs : server :=
  Server {[ "R1" := Room [] {[ "s1"; "s2" ]}
                         [ ("s1", PStr "A"); ("s2", PStr "A") ] ]}
         {[ "s1" := SocketProps (PStr "R1") (PStr "A");
            "s2" := SocketProps (PStr "R1") (PStr "A") ]}
         {[ PStr "R1" := {[ "s1"; "s2" ]} ]}.

(** A run on the sample session: [s2] draws, [s1] edits and undoes its
    own action, then leaves. *)
Definition a2 : obj :=
  {[ "id" := JPrim (PStr "a2"); "userId" := JPrim (PStr "B") ]}.

Definition demo_more : list input :=
  [ AddAction "s2" a2;
    UpdateAction "s1" (PStr "a1") (JObj {[ "x" := JPrim (PNum 7) ]})
                 (JPrim (PBool false)) (PStr "A");
    UndoAction "s1" (PStr "a1") (PStr "A");
    Disconnect "s1" ].

(** ** Vocabulary of the further properties *)

(** The socket a message comes from. *)
Definition sender (i : input) : sid :=
  match i with
  | JoinRoom k _ _ _ | AddAction k _ | UpdateAction k _ _ _ _
  | UndoAction k _ _ | RedoAction k _ _ | Disconnect k => k
  end.

(** The room name a handler works on: the one being joined, or the one
    the sending socket is bound to. *)
Definition target_room (i : input) (s : server) : prim :=
  match i with
  | JoinRoom _ uuid roomId _ => joined_roomId uuid roomId
  | _ => socket_roomId s (sender i)
  end.

(** What holds of every room of a reachable state: [users] has one entry
    per socket id, each for a socket of [clients], with a truthy user id. *)
Definition room_wf (r : room) : Prop :=
  NoDup (fst <$> users r) ∧
  ∀ k u, (k, u) ∈ users r → k ∈ clients r ∧ truthy u = true.

(** Two server states that differ at most in the [userId] properties
    stored on the sockets. *)
Definition agree (s1 s2 : server) : Prop :=
  rooms s1 = rooms s2 ∧ io_rooms s1 = io_rooms s2 ∧
  ∀ k, socket_roomId s1 k = socket_roomId s2 k.

(** ** The client (the [App] component under client/src)

    The part of the React component that keeps the local copy of the
    room: the listeners registered on the socket, as functions from the
    state ([actions], [peers]) to the state set by [setActions] and
    [setPeers], and the builders of the messages sent to the server.
    Notifications and rendering are left out.  An event is applied with
    the payload the server passed to [emit]. *)

Module Client.

(** [a === b] for two values that arrived in different messages:
    primitives compare by value, two objects are never identical. *)
Definition strict_eq_val (a b : jsval) : bool :=
  match a, b with
  | JPrim p, JPrim q => bool_decide (p = q)
  | _, _ => false
  end.

(** [set.add(x)] on a [Set], kept as the list of its elements in insertion
    order. *)
Definition set_add (x : prim) (l : list prim) : list prim :=
  if decide (x ∈ l) then l else (l ++ [x])%list.

(** [new Set(l)] *)
Definition set_of (l : list prim) : list prim :=
  foldl (λ acc x, set_add x acc) [] l.

(** The state kept by [useState]: [actions] and [peers]. *)
Record view : Type := View { actions : list obj; peers : list prim }.

(** The state before any event: [useState([])] and
    [useState(() => [userId])]. *)
Definition initial (userId : prim) : view := View [] [userId].

(** The listeners for the events of the server, for the client of user
    [userId].  There is no listener for the three [*-denied] events. *)
Definition on_event (userId : prim) (e : event) (v : view) : view :=
  match e with
  | room_state _ serverActions participants =>
      View serverActions (set_add userId (set_of participants))
  | action_added action =>
      View (if existsb (λ a, strict_eq_val (field a "id") (field action "id"))
                       (actions v)
            then actions v
            else (actions v ++ [action])%list)
           (peers v)
  | action_undone actionId _ =>
      View ((λ action, if strict_eq (field action "id") actionId
                       then <["undone" := JPrim (PBool true)]> action
                       else action) <$> actions v)
           (peers v)
  | action_redone actionId _ =>
      View ((λ action, if strict_eq (field action "id") actionId
                       then <["undone" := JPrim (PBool false)]> action
                       else action) <$> actions v)
           (peers v)
  | action_updated actionId data =>
      View ((λ action, if strict_eq (field action "id") actionId
                       then <["data" := data]> action
                       else action) <$> actions v)
           (peers v)
  | user_joined joined =>
      if negb (truthy joined) || bool_decide (joined = userId) then v
      else View (actions v)
                (if decide (joined ∈ peers v) then peers v
                 else (peers v ++ [joined])%list)
  | user_left leftId =>
      if negb (truthy leftId) || bool_decide (leftId = userId) then v
      else View (actions v) (filter (λ id, id ≠ leftId) (peers v))
  | update_denied _ _ | undo_denied _ _ | redo_denied _ _ => v
  end.

(** The action built by [handleCreateAction]:
    [{ ...draft, id: nanoid(), userId, timestamp: Date.now(), undone: false }],
    with [newId] and [now] the values of [nanoid()] and [Date.now()]. *)
Definition create_action (userId : prim) (newId : string) (now : Z)
    (draft : obj) : obj :=
  <["undone" := JPrim (PBool false)]>
    (<["timestamp" := JPrim (PNum now)]>
       (<["userId" := JPrim userId]>
          (<["id" := JPrim (PStr newId)]> draft))).

(** The local part of [handleUpdateAction]: the action with the given id
    gets [replace ? data : { ...action.data, ...data }] as its [data]. *)
Definition update_local (actionId : prim) (data replace : jsval)
    (l : list obj) : list obj :=
  (λ action, if negb (strict_eq (field action "id") actionId) then action
             else update_data data replace action) <$> l.

(** The [data] field of the [update-action] message it sends:
    [replace ? data : { ...data }]. *)
Definition update_message_data (data replace : jsval) : jsval :=
  if truthy_val replace then data else JObj (own_props data).

(** [[...actions].reverse().find(a => a.userId === userId && !a.undone)],
    the action [handleUndo] asks the server to undo. *)
Definition undo_candidate (userId : prim) (l : list obj) : option obj :=
  List.find (λ action, strict_eq (field action "userId") userId
                       && negb (truthy_val (field action "undone")))
            (rev l).

(** [[...actions].reverse().find(a => a.userId === userId && a.undone)],
    the action [handleRedo] asks the server to redo. *)
Definition redo_candidate (userId : prim) (l : list obj) : option obj :=
  List.find (λ action, strict_eq (field action "userId") userId
                       && truthy_val (field action "undone"))
            (rev l).

End Client.

(** The entries of [l] with the id [actionId] are all at index [idx]. *)
Definition only_at (l : list obj) (actionId : prim) (idx : nat) : Prop :=
  ∀ j b, l !! j = Some b → strict_eq (field b "id") actionId = true → j = idx.

(** The states a handler can return, on a registry free of inherited
    names. *)
Inductive step_result (i : input) (s : server) : server → Prop :=
  | sr_join k uuid roomId userId :
      i = JoinRoom k uuid roomId userId →
      let rid := joined_roomId uuid roomId in
      let rm := room_at (rooms s) (to_key rid) in
      step_result i s
        (Server (<[to_key rid :=
                     Room (actions rm) ({[k]} ∪ clients rm)
                          (if truthy userId
                           then UserMap.set k userId (users rm)
                           else users rm)]> (rooms s))
                (<[k := SocketProps rid userId]> (sockets s))
                (join rid k (io_rooms s)))
  | sr_log l' :
      (∀ k uuid roomId userId, i ≠ JoinRoom k uuid roomId userId) →
      (∀ k, i ≠ Disconnect k) →
      let rm := room_at (rooms s) (to_key (target_room i s)) in
      step_result i s
        (Server (<[to_key (target_room i s) :=
                     Room l' (clients rm) (users rm)]> (rooms s))
                (sockets s) (io_rooms s))
  | sr_gone k :
      i = Disconnect k →
      step_result i s
        (Server (rooms s) (sockets s) (leave_all k (io_rooms s)))
  | sr_left k r :
      i = Disconnect k →
      rooms s !! to_key (socket_roomId s k) = Some r →
      step_result i s
        (Server (<[to_key (socket_roomId s k) :=
                     Room (actions r) (clients r ∖ {[k]})
                          (UserMap.delete k (users r))]> (rooms s))
                (sockets s) (leave_all k (io_rooms s))).

(** Every stored room is well formed, every socket that has been bound is
    bound to a stored room, and every socket of a transport room is in the
    [clients] of the room of that name. *)
Definition rooms_inv (s : server) : Prop :=
  (∀ key r, rooms s !! key = Some r → room_wf r) ∧
  (∀ k p, sockets s !! k = Some p →
          is_Some (rooms s !! to_key (sock_roomId p))) ∧
  (∀ rid t, t ∈ members (io_rooms s) rid →
            t ∈ clients (room_at (rooms s) (to_key rid))).

(** The sample session, had [s2] declared itself as user [A] at its join. *)
Definition demo_as_A : server :=
  Server (rooms demo)
         {[ "s1" := SocketProps (PStr "R1") (PStr "A");
            "s2" := SocketProps (PStr "R1") (PStr "A") ]}
         (io_rooms demo).

(** Room [R1] after [s1] has drawn [a1] and [s2] has added an action that
    reuses the id [a1]. *)
Definition a1_again : obj :=
  {[ "id" := JPrim (PStr "a1"); "userId" := JPrim (PStr "B") ]}.

Definition demo_dup : server :=
  Server {[ "R1" := Room [a1; a1_again] {[ "s1"; "s2" ]}
                         [ ("s1", PStr "A"); ("s2", PStr "B") ] ]}
         (sockets demo) (io_rooms demo).

(** * Properties *)

(** ** Basic facts about the JavaScript primitives *)

Lemma strict_eq_true (v : jsval) (p : prim) :
  strict_eq v p = true ↔ v = JPrim p.
Proof.
  destruct v as [q|o]; simpl.
  - rewrite bool_decide_eq_true. split; congruence.
  - split; discriminate.
Qed.

Lemma strict_eq_false (v : jsval) (p : prim) :
  strict_eq v p = false ↔ v ≠ JPrim p.
Proof.
  rewrite <- strict_eq_true. destruct (strict_eq v p); split; congruence.
Qed.

Lemma findIndex_Some {A} (p : A → bool) (l : list A) (i : nat) :
  findIndex p l = Some i →
  ∃ x, l !! i = Some x ∧ p x = true.
Proof.
  revert i. induction l as [|y l IH]; intros i; simpl; [done|].
  destruct (p y) eqn:Hy.
  - intros [= <-]. eauto.
  - destruct (findIndex p l) as [j|]; simpl; [|done].
    intros [= <-]. destruct (IH j eq_refl) as (x & ? & ?). eauto.
Qed.

Lemma findIndex_None {A} (p : A → bool) (l : list A) :
  findIndex p l = None ↔ ∀ x, x ∈ l → p x = false.
Proof.
  induction l as [|y l IH]; simpl.
  - split; [|done]. intros _ x Hx. by apply elem_of_nil in Hx.
  - destruct (p y) eqn:Hy.
    + split; [done|]. intros H. rewrite (H y) in Hy; [done|]. by left.
    + destruct (findIndex p l) as [j|]; simpl.
      * split; [done|]. intros H.
        assert (Some j = None) as Hj; [|done].
        apply IH. intros x Hx. apply H. by right.
      * split; [|done]. intros _ x Hx.
        apply elem_of_cons in Hx as [->|Hx]; [done|]. by apply IH.
Qed.

(** [findIndex] only looks at what the predicate sees: replacing an entry
    by one on which the predicate agrees does not move the result. *)
Lemma findIndex_insert {A} (p : A → bool) (l : list A) (j : nat) (x y : A) :
  l !! j = Some x → p y = p x →
  findIndex p (<[j := y]> l) = findIndex p l.
Proof.
  revert j. induction l as [|z l IH]; intros j; [done|].
  destruct j as [|j]; simpl.
  - intros [= ->] ->. done.
  - intros Hj Hp. by rewrite (IH j Hj Hp).
Qed.

(** ** The room registry *)

Lemma room_at_insert (rs : gmap string room) (k k' : string) (r : room) :
  room_at (<[k := r]> rs) k' = if decide (k = k') then r else room_at rs k'.
Proof.
  unfold room_at. rewrite lookup_insert. by case_decide.
Qed.

Lemma room_at_Some (rs : gmap string room) (k : string) (r : room) :
  rs !! k = Some r → room_at rs k = r.
Proof. unfold room_at. by intros ->. Qed.

Lemma ensureRoom_Some (rs : gmap string room) (roomId : prim) (r : room) :
  rs !! to_key roomId = Some r →
  ensureRoom roomId rs = (rs, Own r).
Proof. unfold ensureRoom, rooms_get. by intros ->. Qed.

Lemma ensureRoom_None (rs : gmap string room) (roomId : prim) :
  rs !! to_key roomId = None →
  to_key roomId ∉ object_prototype_keys →
  ensureRoom roomId rs = (<[to_key roomId := empty_room]> rs, Own empty_room).
Proof.
  unfold ensureRoom, rooms_get. intros -> Hk.
  by rewrite decide_False.
Qed.


(** On a name that is not inherited, [ensureRoom] returns the room state
    of that name and registers it. *)
Lemma ensureRoom_ok (rs : gmap string room) (roomId : prim) :
  to_key roomId ∉ object_prototype_keys →
  ensureRoom roomId rs
  = (<[to_key roomId := room_at rs (to_key roomId)]> rs,
     Own (room_at rs (to_key roomId))).
Proof.
  intros Hk. unfold room_at.
  destruct (rs !! to_key roomId) as [r|] eqn:E; simpl.
  - rewrite (ensureRoom_Some _ _ _ E). by rewrite insert_id.
  - by rewrite ensureRoom_None.
Qed.

Lemma server_eta (s : server) :
  Server (rooms s) (sockets s) (io_rooms s) = s.
Proof. by destruct s. Qed.

(** ** The owner-gated handlers, case by case *)

Section Gated.
Context (k : sid) (actionId userId : prim).
Context (denied : event) (mutate : obj → obj) (done : obj → event).
Context (s : server).

Let roomId := socket_roomId s k.
Let key := to_key roomId.

Lemma gated_found (r : room) (idx : nat) (a : obj) :
  rooms s !! key = Some r →
  findIndex (λ a, strict_eq (field a "id") actionId) (actions r) = Some idx →
  actions r !! idx = Some a →
  gated k actionId userId denied mutate done s =
    if strict_eq (field a "userId") userId
    then Some (Server (<[key := Room (<[idx := mutate a]> (actions r))
                                     (clients r) (users r)]> (rooms s))
                      (sockets s) (io_rooms s),
               [ io_to (io_rooms s) roomId (done (mutate a)) ])
    else Some (s, [ socket_emit k denied ]).
Proof.
  intros Hr Hi Ha. unfold gated. fold roomId. fold key.
  rewrite (ensureRoom_Some _ _ _ Hr). simpl.
  rewrite Hi, Ha. destruct (strict_eq (field a "userId") userId); simpl.
  - done.
  - by rewrite server_eta.
Qed.

End Gated.

(** ** What each handler does on a room name that is not inherited *)

Lemma gated_eq (k : sid) (actionId userId : prim) (denied : event)
    (mutate : obj → obj) (done : obj → event) (s : server) :
  let roomId := socket_roomId s k in
  let key := to_key roomId in
  let rm := room_at (rooms s) key in
  key ∉ object_prototype_keys →
  gated k actionId userId denied mutate done s =
    match findIndex (λ a, strict_eq (field a "id") actionId) (actions rm) with
    | None => Some (Server (<[key := rm]> (rooms s)) (sockets s) (io_rooms s), [])
    | Some idx =>
        match actions rm !! idx with
        | None => None
        | Some a =>
            if strict_eq (field a "userId") userId
            then Some (Server (<[key := Room (<[idx := mutate a]> (actions rm))
                                             (clients rm) (users rm)]> (rooms s))
                              (sockets s) (io_rooms s),
                       [ io_to (io_rooms s) roomId (done (mutate a)) ])
            else Some (Server (<[key := rm]> (rooms s)) (sockets s) (io_rooms s),
                       [ socket_emit k denied ])
        end
    end.
Proof.
  intros roomId key rm Hk. unfold gated. fold roomId.
  rewrite (ensureRoom_ok _ _ Hk). fold key. fold rm. simpl.
  destruct (findIndex _ (actions rm)) as [idx|]; [|done].
  destruct (actions rm !! idx) as [a|]; [|done].
  destruct (strict_eq (field a "userId") userId); simpl; [|done].
  by rewrite insert_insert_eq.
Qed.

Lemma on_add_action_eq (k : sid) (action : obj) (s : server) :
  let roomId := socket_roomId s k in
  let key := to_key roomId in
  let rm := room_at (rooms s) key in
  key ∉ object_prototype_keys →
  on_add_action k action s =
    Some (Server (<[key := Room (actions rm ++ [action])%list
                                (clients rm) (users rm)]> (rooms s))
                 (sockets s) (io_rooms s),
          [ socket_to (io_rooms s) k roomId (action_added action) ]).
Proof.
  intros roomId key rm Hk. unfold on_add_action. fold roomId.
  rewrite (ensureRoom_ok _ _ Hk). fold key. fold rm. simpl.
  by rewrite insert_insert_eq.
Qed.

Lemma on_join_room_eq (k : sid) (uuid : string) (roomId userId : prim)
    (s : server) :
  let rid := joined_roomId uuid roomId in
  let key := to_key rid in
  let rm := room_at (rooms s) key in
  let us := if truthy userId then UserMap.set k userId (users rm)
            else users rm in
  let io := join rid k (io_rooms s) in
  key ∉ object_prototype_keys →
  on_join_room k uuid roomId userId s =
    Some (Server (<[key := Room (actions rm) ({[k]} ∪ clients rm) us]> (rooms s))
                 (<[k := SocketProps rid userId]> (sockets s)) io,
          [ socket_emit k (room_state rid (actions rm) (UserMap.values us));
            socket_to io k rid (user_joined userId) ]).
Proof.
  intros rid key rm us io Hk. unfold on_join_room. fold (joined_roomId uuid roomId).
  fold rid. rewrite (ensureRoom_ok _ _ Hk). fold key. fold rm. simpl.
  by rewrite insert_insert_eq.
Qed.

Lemma on_join_room_Some (k : sid) (uuid : string) (roomId userId : prim)
    (s : server) (res : server * list emission) :
  (∀ key, key ∈ object_prototype_keys → rooms s !! key = None) →
  on_join_room k uuid roomId userId s = Some res →
  to_key (joined_roomId uuid roomId) ∉ object_prototype_keys.
Proof.
  intros Hown. unfold on_join_room. fold (joined_roomId uuid roomId).
  unfold ensureRoom, rooms_get. intros H Hin.
  rewrite (Hown _ Hin) in H. by rewrite decide_True in H.
Qed.

Lemma on_disconnect_inv (k : sid) (s s' : server) (out : list emission) :
  on_disconnect k s = Some (s', out) →
  sockets s' = sockets s ∧
  ∀ key, log_at (rooms s') key = log_at (rooms s) key ∧
         (rooms s !! key = None → rooms s' !! key = None).
Proof.
  unfold on_disconnect.
  destruct (truthy (socket_roomId s k)); simpl; [|by intros [= <- <-]].
  unfold rooms_get.
  destruct (rooms s !! to_key (socket_roomId s k)) as [r|] eqn:Hr; simpl.
  - assert (∀ r', actions r' = actions r →
       ∀ key, log_at (<[to_key (socket_roomId s k) := r']> (rooms s)) key
              = log_at (rooms s) key ∧
              (rooms s !! key = None →
               <[to_key (socket_roomId s k) := r']> (rooms s) !! key = None))
      as Hframe.
    { intros r' Hr' key. unfold log_at. rewrite room_at_insert.
      rewrite lookup_insert. case_decide as E; [subst key|done].
      rewrite (room_at_Some _ _ _ Hr). split; [done|congruence]. }
    destruct (UserMap.has k (users r)); intros [= <- <-]; simpl;
      (split; [done|]); by apply Hframe.
  - case_decide; simpl; [done|]. by intros [= <- <-].
Qed.

(** ** How a step changes the logs *)

Lemma stable_refl (a : obj) : stable a a.
Proof. by intros f. Qed.

Lemma stable_trans (a b c : obj) : stable a b → stable b c → stable a c.
Proof. intros Hab Hbc f H1 H2. rewrite (Hbc f H1 H2). by apply Hab. Qed.

Lemma stable_update_data (data replace : jsval) (a : obj) :
  stable a (update_data data replace a).
Proof. intros f H1 _. unfold update_data. by rewrite lookup_insert_ne. Qed.

Lemma stable_set_undone (b : bool) (a : obj) : stable a (set_undone b a).
Proof. intros f _ H2. unfold set_undone. by rewrite lookup_insert_ne. Qed.

Lemma Forall2_stable_refl (l : list obj) : Forall2 stable l l.
Proof. induction l; constructor; auto using stable_refl. Qed.

Lemma log_extends_refl (l : list obj) : log_extends l l.
Proof.
  exists l, []. split; [by rewrite app_nil_r|apply Forall2_stable_refl].
Qed.

Lemma log_extends_trans (l1 l2 l3 : list obj) :
  log_extends l1 l2 → log_extends l2 l3 → log_extends l1 l3.
Proof.
  intros (m1 & t1 & -> & H1) (m2 & t2 & -> & H2).
  apply Forall2_app_inv_l in H2 as (n1 & n2 & Hn1 & Hn2 & ->).
  exists n1, (n2 ++ t2)%list. split; [by rewrite <- app_assoc|].
  clear Hn2. revert n1 Hn1. induction H1; intros n1 Hn1.
  - inversion Hn1. constructor.
  - inversion Hn1; subst. constructor; eauto using stable_trans.
Qed.

Lemma log_step_extends (l l' : list obj) : log_step l l' → log_extends l l'.
Proof.
  intros [|a|idx a a' Ha Hst].
  - apply log_extends_refl.
  - exists l, [a]. split; [done|apply Forall2_stable_refl].
  - exists (<[idx := a']> l), []. split; [by rewrite app_nil_r|].
    revert idx Ha. induction l as [|x l IH]; intros idx Ha; [done|].
    destruct idx as [|idx]; simpl in *.
    + injection Ha as ->. constructor; [done|apply Forall2_stable_refl].
    + constructor; [apply stable_refl|by apply IH].
Qed.

(** What [log_extends] gives for the observer of a log. *)
Lemma log_extends_length (l l' : list obj) :
  log_extends l l' → (length l ≤ length l')%nat.
Proof.
  intros (l1 & l2 & -> & H). rewrite length_app.
  apply Forall2_length in H. lia.
Qed.

Lemma log_extends_lookup (l l' : list obj) (i : nat) (a : obj) :
  log_extends l l' → l !! i = Some a →
  ∃ a', l' !! i = Some a' ∧ stable a a'.
Proof.
  intros (l1 & l2 & -> & H) Ha.
  destruct (Forall2_lookup_l _ _ _ _ _ H Ha) as (a' & Ha' & Hst).
  exists a'. split; [|done]. by apply lookup_app_l_Some.
Qed.

Lemma stable_field (a a' : obj) (f : string) :
  stable a a' → f ≠ "data" → f ≠ "undone" → field a' f = field a f.
Proof. intros H H1 H2. unfold field. by rewrite (H f H1 H2). Qed.

Lemma log_extends_ids (l l' : list obj) :
  log_extends l l' →
  ((λ a, field a "id") <$> l) `prefix_of` ((λ a, field a "id") <$> l').
Proof.
  intros (l1 & l2 & -> & H). rewrite fmap_app.
  exists ((λ a, field a "id") <$> l2). f_equal.
  induction H as [|a a' l l1 Hst _ IH]; [done|]. rewrite !fmap_cons.
  f_equal; [|exact IH]. by apply stable_field.
Qed.

Lemma log_at_insert (rs : gmap string room) (key key' : string) (r : room) :
  log_at (<[key := r]> rs) key'
  = if decide (key = key') then actions r else log_at rs key'.
Proof. unfold log_at. rewrite room_at_insert. by case_decide. Qed.

Lemma insert_keeps_inherited (rs : gmap string room) (key key' : string)
    (r : room) :
  key ∉ object_prototype_keys → key' ∈ object_prototype_keys →
  rs !! key' = None → <[key := r]> rs !! key' = None.
Proof.
  intros Hk Hk' Hn. rewrite lookup_insert_ne; [done|]. by intros ->.
Qed.

(** One step keeps the registry free of inherited names and extends
    every log by one [log_step]. *)
Lemma step_inv (i : input) (s s' : server) (out : list emission) :
  keys_ok s → step i s = Some (s', out) →
  keys_ok s' ∧
  ∀ key, log_step (log_at (rooms s) key) (log_at (rooms s') key).
Proof.
  intros [Hsock Hown] Hstep.
  assert (∀ key l' c u,
    (key ∉ object_prototype_keys) →
    log_step (log_at (rooms s) key) l' →
    keys_ok (Server (<[key := Room l' c u]> (rooms s)) (sockets s) (io_rooms s)) ∧
    ∀ key', log_step (log_at (rooms s) key')
              (log_at (<[key := Room l' c u]> (rooms s)) key')) as Hins.
  { intros key l' c u Hk Hl. split.
    - split; [exact Hsock|]. intros key' Hk'. simpl.
      apply insert_keeps_inherited; auto.
    - intros key'. rewrite log_at_insert. case_decide; [by subst|constructor]. }
  destruct i as [k uuid roomId userId|k action|k actionId data replace userId
                |k actionId userId|k actionId userId|k]; simpl in Hstep.
  - pose proof (on_join_room_Some _ _ _ _ _ _ Hown Hstep) as Hk.
    rewrite (on_join_room_eq _ _ _ _ _ Hk) in Hstep.
    injection Hstep as <- <-. split.
    + split; simpl.
      * intros k'. unfold socket_roomId. simpl. rewrite lookup_insert.
        case_decide; [done|]. apply Hsock.
      * intros key' Hk'. apply insert_keeps_inherited; auto.
    + intros key'. simpl. rewrite log_at_insert.
      case_decide; [subst key'|]; constructor.
  - rewrite (on_add_action_eq _ _ _ (Hsock k)) in Hstep.
    injection Hstep as <- <-. apply Hins; [apply Hsock|constructor].
  - unfold on_update_action in Hstep.
    rewrite (gated_eq _ _ _ _ _ _ _ (Hsock k)) in Hstep.
    repeat case_match; simplify_eq; destruct (room_at _ _) eqn:E; simpl in *;
      apply Hins; try apply Hsock; unfold log_at; rewrite E; simpl;
      try constructor.
    econstructor; [done|apply stable_update_data].
  - unfold on_undo_action in Hstep.
    rewrite (gated_eq _ _ _ _ _ _ _ (Hsock k)) in Hstep.
    repeat case_match; simplify_eq; destruct (room_at _ _) eqn:E; simpl in *;
      apply Hins; try apply Hsock; unfold log_at; rewrite E; simpl;
      try constructor.
    econstructor; [done|apply stable_set_undone].
  - unfold on_redo_action in Hstep.
    rewrite (gated_eq _ _ _ _ _ _ _ (Hsock k)) in Hstep.
    repeat case_match; simplify_eq; destruct (room_at _ _) eqn:E; simpl in *;
      apply Hins; try apply Hsock; unfold log_at; rewrite E; simpl;
      try constructor.
    econstructor; [done|apply stable_set_undone].
  - destruct (on_disconnect_inv _ _ _ _ Hstep) as [Hs Hr]. split.
    + split.
      * intros k'. unfold socket_roomId. rewrite Hs. apply Hsock.
      * intros key' Hk'. apply Hr. by apply Hown.
    + intros key'. destruct (Hr key') as [-> _]. constructor.
Qed.

Lemma undefined_not_inherited : "undefined" ∉ object_prototype_keys.
Proof. apply (bool_decide_unpack _). by vm_compute. Qed.

Lemma keys_ok_init : keys_ok init.
Proof. split; [|done]. intros k. apply undefined_not_inherited. Qed.

Lemma reachable_keys_ok (s : server) : reachable s → keys_ok s.
Proof.
  induction 1 as [|i s s' out _ IH Hstep]; [apply keys_ok_init|].
  by destruct (step_inv _ _ _ _ IH Hstep).
Qed.

Lemma run_inv (ins : list input) (s s' : server) (out : list emission) :
  keys_ok s → run ins s = Some (s', out) →
  keys_ok s' ∧
  ∀ key, log_extends (log_at (rooms s) key) (log_at (rooms s') key).
Proof.
  revert s out. induction ins as [|i ins IH]; intros s out Hok; simpl.
  - intros [= <- <-]. split; [done|]. intros key. apply log_extends_refl.
  - destruct (step i s) as [[s1 out1]|] eqn:Hstep; [|done].
    destruct (run ins s1) as [[s2 out2]|] eqn:Hrun; [|done].
    intros [= <- <-].
    destruct (step_inv _ _ _ _ Hok Hstep) as [Hok1 Hl1].
    destruct (IH _ _ Hok1 Hrun) as [Hok2 Hl2].
    split; [done|]. intros key.
    eapply log_extends_trans; [apply log_step_extends, Hl1|apply Hl2].
Qed.

Lemma reachable_run (ins : list input) (s s' : server) (out : list emission) :
  reachable s → run ins s = Some (s', out) → reachable s'.
Proof.
  revert s out. induction ins as [|i ins IH]; intros s out Hr; simpl.
  - by intros [= <- <-].
  - destruct (step i s) as [[s1 out1]|] eqn:Hstep; [|done].
    destruct (run ins s1) as [[s2 out2]|] eqn:Hrun; [|done].
    intros [= <- <-]. eapply IH; [|done]. by econstructor.
Qed.

Lemma demo_run : fst <$> run demo_inputs init = Some demo.
Proof. vm_compute. reflexivity. Qed.

Lemma demo_reachable : reachable demo.
Proof.
  pose proof demo_run as H.
  destruct (run demo_inputs init) as [[s out]|] eqn:E; [|done].
  injection H as <-. eapply reachable_run; [apply reach_init|exact E].
Qed.

(** The handlers on the sample session. *)

Example demo_update_by_other_user :
  on_update_action "s2" (PStr "a1") (JObj {[ "x" := JPrim (PNum 9) ]})
    (JPrim (PBool true)) (PStr "B") demo
  = Some (demo, [ Emit {[ "s2" ]} (update_denied (PStr "a1") "not-owner") ]).
Proof. vm_compute. reflexivity. Qed.

Example demo_update_by_owner :
  snd <$> on_update_action "s1" (PStr "a1") (JObj {[ "x" := JPrim (PNum 9) ]})
            (JPrim (PBool false)) (PStr "A") demo
  = Some [ Emit {[ "s1"; "s2" ]}
             (action_updated (PStr "a1")
                (JObj {[ "x" := JPrim (PNum 9); "y" := JPrim (PNum 2) ]})) ].
Proof. vm_compute. reflexivity. Qed.

Example demo_disconnect :
  snd <$> on_disconnect "s1" demo
  = Some [ Emit {[ "s2" ]} (user_left (PStr "A")) ].
Proof. vm_compute. reflexivity. Qed.

Example demo_spread_string :
  spread2 (JPrim (PStr "ab")) (JPrim PUndefined)
  = JObj {[ "0" := JPrim (PStr "a"); "1" := JPrim (PStr "b") ]}.
Proof. vm_compute. reflexivity. Qed.

Lemma log_of_with_entry (s : server) (k : sid) (idx : nat) (a' : obj) :
  log_of (with_entry s k idx a') k = <[idx := a']> (log_of s k).
Proof.
  unfold log_of, with_entry, socket_roomId. simpl.
  rewrite log_at_insert. by rewrite decide_True.
Qed.

Lemma found_room (s : server) (k : sid) (p : obj → bool) (idx : nat) :
  findIndex p (log_of s k) = Some idx →
  rooms s !! to_key (socket_roomId s k)
  = Some (room_at (rooms s) (to_key (socket_roomId s k))).
Proof.
  unfold log_of, log_at, room_at.
  destruct (rooms s !! to_key (socket_roomId s k)); [done|]. simpl. done.
Qed.

Lemma gated_gate (k : sid) (actionId userId : prim) (denied : event)
    (mutate : obj → obj) (done : obj → event) (s : server)
    (idx : nat) (a : obj) :
  findIndex (λ x, strict_eq (field x "id") actionId) (log_of s k) = Some idx →
  log_of s k !! idx = Some a →
  (field a "userId" = JPrim userId →
   gated k actionId userId denied mutate done s
   = Some (with_entry s k idx (mutate a),
           [ Emit (members (io_rooms s) (socket_roomId s k))
                  (done (mutate a)) ])) ∧
  (field a "userId" ≠ JPrim userId →
   gated k actionId userId denied mutate done s
   = Some (s, [ Emit {[k]} denied ])).
Proof.
  intros Hi Ha. pose proof (found_room _ _ _ _ Hi) as Hr.
  rewrite (gated_found _ _ _ _ _ _ _ _ _ _ Hr Hi Ha).
  split.
  - intros Ho. apply strict_eq_true in Ho. by rewrite Ho.
  - intros Ho. apply strict_eq_false in Ho. by rewrite Ho.
Qed.





(** ** The join handshake *)


Lemma usermap_get_values (k : sid) (v : prim) (m : list (sid * prim)) :
  UserMap.get k m = Some v → v ∈ UserMap.values m.
Proof.
  unfold UserMap.values. induction m as [|[k' v'] m IH]; simpl; [done|].
  destruct (decide (k' = k)).
  - intros [= ->]. by left.
  - intros H. right. by apply IH.
Qed.


(** A [join-room] for a room name inherited from [Object.prototype]
    raises: [ensureRoom] returns the inherited value, which has no
    [clients] set. *)
Lemma join_inherited_name_raises :
  on_join_room "s1" "uuid-1" (PStr "constructor") (PStr "A") init = None.
Proof. reflexivity. Qed.

(** A socket is in the transport room it has just joined. *)
Lemma joined_is_member (s s' : server) (k : sid) (uuid : string)
    (roomId userId : prim) (out : list emission) :
  to_key (joined_roomId uuid roomId) ∉ object_prototype_keys →
  on_join_room k uuid roomId userId s = Some (s', out) →
  k ∈ members (io_rooms s') (socket_roomId s' k).
Proof.
  intros Hk. rewrite (on_join_room_eq _ _ _ _ _ Hk). intros [= <- <-].
  unfold socket_roomId, join, members. simpl.
  rewrite !lookup_insert_eq. simpl.
  by apply elem_of_union_l, elem_of_singleton.
Qed.



(** C9 (join without a room id).  A [join-room] whose [roomId] is falsy
    is served: the room takes the identifier produced by [uuidv4()];
    provided that identifier is new to the registry, an empty room is
    created under it, the socket is registered there and bound to it, and
    the [room-state] sent to the joiner carries the generated identifier
    and an empty log. *)
Theorem join_without_room_id (s : server) (k : sid) (uuid : string)
    (roomId userId : prim) :
  truthy roomId = false →
  uuid ∉ object_prototype_keys →
  rooms s !! uuid = None →
  let us := if truthy userId then [ (k, userId) ] else [] in
  ∃ s',
    on_join_room k uuid roomId userId s
    = Some (s', [ Emit {[k]} (room_state (PStr uuid) [] (UserMap.values us));
                  Emit (members (io_rooms s') (PStr uuid) ∖ {[k]})
                       (user_joined userId) ]) ∧
    rooms s' = <[uuid := Room [] {[k]} us]> (rooms s) ∧
    socket_roomId s' k = PStr uuid ∧
    k ∈ members (io_rooms s') (PStr uuid).
Proof.
  intros Hfalsy Hk Hfresh us.
  assert (joined_roomId uuid roomId = PStr uuid) as Hrid
    by (unfold joined_roomId; by rewrite Hfalsy).
  rewrite on_join_room_eq; rewrite Hrid; simpl; [|done].
  match goal with |- context [Some (?S, _)] => exists S end. simpl.
  unfold room_at. rewrite Hfresh. simpl.
  assert ((if truthy userId then [(k, userId)] else []) = us) as -> by done.
  split; [|split; [|split]].
  - done.
  - f_equal. f_equal. apply union_empty_r_L.
  - unfold socket_roomId. simpl. by rewrite lookup_insert_eq.
  - unfold join, members. rewrite lookup_insert_eq. simpl.
    by apply elem_of_union_l, elem_of_singleton.
Qed.

Lemma join_without_room_id_witness :
  truthy (PStr "") = false ∧
  ("uuid-3" ∉ object_prototype_keys) ∧
  rooms demo !! "uuid-3" = None ∧
  ∃ s',
    on_join_room "s3" "uuid-3" (PStr "") (PStr "C") demo
    = Some (s', [ Emit {[ "s3" ]}
                    (room_state (PStr "uuid-3") [] [ PStr "C" ]);
                  Emit (members (io_rooms s') (PStr "uuid-3") ∖ {[ "s3" ]})
                       (user_joined (PStr "C")) ]) ∧
    socket_roomId s' "s3" = PStr "uuid-3".
Proof.
  assert ("uuid-3" ∉ object_prototype_keys) as Hk
    by (apply (bool_decide_unpack _); exact I).
  split; [reflexivity|]. split; [exact Hk|]. split; [reflexivity|].
  destruct (join_without_room_id demo "s3" "uuid-3" (PStr "") (PStr "C")
              eq_refl Hk eq_refl) as (s' & H1 & _ & H3 & _).
  exists s'. split; [exact H1|exact H3].
Defined.

(** ** Undo and redo *)

Lemma field_set_undone (b : bool) (a : obj) (f : string) :
  f ≠ "undone" → field (set_undone b a) f = field a f.
Proof. intros H. unfold field, set_undone. by rewrite lookup_insert_ne. Qed.

Lemma set_undone_twice (b : bool) (a : obj) :
  set_undone b (set_undone b a) = set_undone b a.
Proof. unfold set_undone. apply insert_insert_eq. Qed.

Lemma with_entry_twice (s : server) (k : sid) (idx : nat) (x y : obj) :
  with_entry (with_entry s k idx x) k idx y = with_entry s k idx y.
Proof.
  unfold with_entry, socket_roomId. simpl.
  rewrite room_at_insert, decide_True by done. simpl.
  by rewrite insert_insert_eq, list_insert_insert_eq.
Qed.

(** Setting the flag of an action the sender owns, twice in a row. *)
Lemma set_undone_idempotent (b : bool) (done : event) (denied : event)
    (s : server) (k : sid) (actionId claimed : prim) (idx : nat) (a : obj) :
  findIndex (λ x, strict_eq (field x "id") actionId) (log_of s k) = Some idx →
  log_of s k !! idx = Some a →
  field a "userId" = JPrim claimed →
  let h := gated k actionId claimed denied (set_undone b) (λ _, done) in
  let s1 := with_entry s k idx (set_undone b a) in
  let out := [ Emit (members (io_rooms s) (socket_roomId s k)) done ] in
  h s = Some (s1, out) ∧ h s1 = Some (s1, out) ∧
  log_of s1 k !! idx = Some (set_undone b a).
Proof.
  intros Hi Ha Ho h s1 out.
  assert (log_of s1 k !! idx = Some (set_undone b a)) as Ha1.
  { unfold s1. rewrite log_of_with_entry. apply list_lookup_insert_eq.
    by eapply lookup_lt_Some. }
  assert (findIndex (λ x, strict_eq (field x "id") actionId) (log_of s1 k)
          = Some idx) as Hi1.
  { unfold s1. rewrite log_of_with_entry.
    rewrite (findIndex_insert _ _ _ a); [done|done|].
    by rewrite field_set_undone. }
  assert (field (set_undone b a) "userId" = JPrim claimed) as Ho1
    by (by rewrite field_set_undone).
  split; [|split; [|done]].
  - unfold h. by rewrite (proj1 (gated_gate _ _ _ _ _ _ _ _ _ Hi Ha) Ho).
  - unfold h. rewrite (proj1 (gated_gate _ _ _ _ _ _ _ _ _ Hi1 Ha1) Ho1).
    unfold s1 at 1. by rewrite with_entry_twice, set_undone_twice.
Qed.

(** C4 (idempotent undo and redo).  For an action of the sender's room
    that the sender owns, a second [undo-action] right after the first
    leaves the server state as the first one left it, with [undone] equal
    to [true]; a second [redo-action] likewise, with [undone] equal to
    [false].  Both calls are served and broadcast the same event. *)
Theorem undo_redo_idempotent (s : server) (k : sid) (actionId claimed : prim)
    (idx : nat) (a : obj) :
  findIndex (λ x, strict_eq (field x "id") actionId) (log_of s k) = Some idx →
  log_of s k !! idx = Some a →
  field a "userId" = JPrim claimed →
  (∃ s1 out a',
     on_undo_action k actionId claimed s = Some (s1, out) ∧
     on_undo_action k actionId claimed s1 = Some (s1, out) ∧
     log_of s1 k !! idx = Some a' ∧
     field a' "undone" = JPrim (PBool true)) ∧
  (∃ s1 out a',
     on_redo_action k actionId claimed s = Some (s1, out) ∧
     on_redo_action k actionId claimed s1 = Some (s1, out) ∧
     log_of s1 k !! idx = Some a' ∧
     field a' "undone" = JPrim (PBool false)).
Proof.
  intros Hi Ha Ho. unfold on_undo_action, on_redo_action. split.
  - destruct (set_undone_idempotent true (action_undone actionId claimed)
                (undo_denied actionId "not-owner") _ _ _ _ _ _ Hi Ha Ho)
      as (H1 & H2 & H3).
    eexists _, _, _. repeat split; [exact H1|exact H2|exact H3|].
    unfold field, set_undone. by rewrite lookup_insert_eq.
  - destruct (set_undone_idempotent false (action_redone actionId claimed)
                (redo_denied actionId "not-owner") _ _ _ _ _ _ Hi Ha Ho)
      as (H1 & H2 & H3).
    eexists _, _, _. repeat split; [exact H1|exact H2|exact H3|].
    unfold field, set_undone. by rewrite lookup_insert_eq.
Qed.

Lemma undo_redo_idempotent_witness :
  findIndex (λ x, strict_eq (field x "id") (PStr "a1")) (log_of demo "s1") = Some 0 ∧
  log_of demo "s1" !! 0 = Some a1 ∧
  field a1 "userId" = JPrim (PStr "A") ∧
  ∃ s1 out a',
    on_undo_action "s1" (PStr "a1") (PStr "A") demo = Some (s1, out) ∧
    on_undo_action "s1" (PStr "a1") (PStr "A") s1 = Some (s1, out) ∧
    log_of s1 "s1" !! 0 = Some a' ∧
    field a' "undone" = JPrim (PBool true).
Proof.
  split; [reflexivity|]. split; [reflexivity|]. split; [reflexivity|].
  exact (proj1 (undo_redo_idempotent demo "s1" (PStr "a1") (PStr "A") 0 a1
                  eq_refl eq_refl eq_refl)).
Defined.

(** ** Fan-out of creates and updates *)



(** ** Payload update *)




(** ** Sessions that never joined *)




(** ** The log over whole runs *)

(** C3 (append-only log).  Along any run of [join-room], [add-action],
    [update-action], [undo-action], [redo-action] and [disconnect]
    handlers from a reachable state, the log of every room never gets
    shorter, the sequence of ids it had stays a prefix of the sequence of
    ids it has, and each entry is still at its index, equal to what it was
    on every property other than [data] and [undone]. *)
Theorem log_is_append_only (ins : list input) (s s' : server)
    (out : list emission) (key : string) :
  reachable s →
  run ins s = Some (s', out) →
  (length (log_at (rooms s) key) ≤ length (log_at (rooms s') key))%nat ∧
  ((λ a, field a "id") <$> log_at (rooms s) key)
    `prefix_of` ((λ a, field a "id") <$> log_at (rooms s') key) ∧
  (∀ i a, log_at (rooms s) key !! i = Some a →
     ∃ a', log_at (rooms s') key !! i = Some a' ∧
           ∀ f, f ≠ "data" → f ≠ "undone" → a' !! f = a !! f).
Proof.
  intros Hreach Hrun.
  destruct (run_inv _ _ _ _ (reachable_keys_ok _ Hreach) Hrun) as [_ Hext].
  specialize (Hext key). split; [|split].
  - by apply log_extends_length.
  - by apply log_extends_ids.
  - intros i a Ha. by apply (log_extends_lookup _ _ _ _ Hext).
Qed.

Lemma demo_more_runs : is_Some (run demo_more demo).
Proof. vm_compute. by eexists. Qed.

Lemma log_is_append_only_witness :
  reachable demo ∧
  ∃ s' out,
    run demo_more demo = Some (s', out) ∧
    (length (log_at (rooms demo) "R1") ≤ length (log_at (rooms s') "R1"))%nat.
Proof.
  split; [exact demo_reachable|].
  destruct (run demo_more demo) as [[s' out]|] eqn:E.
  - exists s', out. split; [reflexivity|].
    exact (proj1 (log_is_append_only demo_more demo s' out "R1"
                    demo_reachable E)).
  - exfalso. pose proof demo_more_runs as H. rewrite E in H.
    by destruct H.
Defined.

(** ** Identity of an action *)

(** An owner-gated handler changes entries only through [mutate]. *)
Lemma gated_frame (R : obj → obj → Prop) (k : sid) (actionId userId : prim)
    (denied : event) (mutate : obj → obj) (done : obj → event)
    (s s' : server) (out : list emission) :
  (∀ a, R a a) → (∀ a, R a (mutate a)) →
  to_key (socket_roomId s k) ∉ object_prototype_keys →
  gated k actionId userId denied mutate done s = Some (s', out) →
  ∀ key, Forall2 R (log_at (rooms s) key) (log_at (rooms s') key).
Proof.
  intros Hrefl Hmut Hk. rewrite (gated_eq _ _ _ _ _ _ _ Hk).
  assert (∀ l : list obj, Forall2 R l l) as Hall
    by (intros l; induction l; constructor; auto).
  intros H key. repeat case_match; simplify_eq; simpl;
    rewrite log_at_insert; case_decide; subst; simpl; try apply Hall.
  fold (log_at (rooms s) (to_key (socket_roomId s k))).
  match goal with
  | Ha : _ !! ?i = Some ?a |- Forall2 R ?l (<[?i := ?b]> ?l) =>
      rewrite <- (list_insert_id l i a Ha) at 1;
      apply Forall2_insert; [apply Hall|apply Hmut]
  end.
Qed.

(** C8 (id and owner are immutable).  In a reachable state,
    [add-action] stores the action as it was sent, [update-action] leaves
    every property of every log entry other than [data] as it was,
    [undo-action] and [redo-action] every property other than [undone];
    and after any run of handlers each entry is still at its index with
    the [id] and [userId] it had. *)
Theorem id_and_owner_immutable (s : server) :
  reachable s →
  (∀ k action, ∃ s' out,
     on_add_action k action s = Some (s', out) ∧
     log_of s' k = (log_of s k ++ [action])%list) ∧
  (∀ k actionId data replace claimed s' out key,
     on_update_action k actionId data replace claimed s = Some (s', out) →
     Forall2 (λ a a', ∀ f, f ≠ "data" → a' !! f = a !! f)
             (log_at (rooms s) key) (log_at (rooms s') key)) ∧
  (∀ k actionId claimed s' out key,
     on_undo_action k actionId claimed s = Some (s', out) →
     Forall2 (λ a a', ∀ f, f ≠ "undone" → a' !! f = a !! f)
             (log_at (rooms s) key) (log_at (rooms s') key)) ∧
  (∀ k actionId claimed s' out key,
     on_redo_action k actionId claimed s = Some (s', out) →
     Forall2 (λ a a', ∀ f, f ≠ "undone" → a' !! f = a !! f)
             (log_at (rooms s) key) (log_at (rooms s') key)) ∧
  (∀ ins s' out key i a,
     run ins s = Some (s', out) →
     log_at (rooms s) key !! i = Some a →
     ∃ a', log_at (rooms s') key !! i = Some a' ∧
           field a' "id" = field a "id" ∧
           field a' "userId" = field a "userId").
Proof.
  intros Hreach. pose proof (reachable_keys_ok _ Hreach) as Hok.
  destruct Hok as [Hsock Hown]. repeat split.
  - intros k action. rewrite (on_add_action_eq _ _ _ (Hsock k)).
    eexists _, _. split; [reflexivity|].
    unfold log_of, socket_roomId. simpl.
    by rewrite log_at_insert, decide_True.
  - intros k actionId data replace claimed s' out key H.
    refine (gated_frame _ _ _ _ _ _ _ _ _ _ _ _ (Hsock k) H key); [done|].
    intros a f Hf. unfold update_data. by rewrite lookup_insert_ne.
  - intros k actionId claimed s' out key H.
    refine (gated_frame _ _ _ _ _ _ _ _ _ _ _ _ (Hsock k) H key); [done|].
    intros a f Hf. unfold set_undone. by rewrite lookup_insert_ne.
  - intros k actionId claimed s' out key H.
    refine (gated_frame _ _ _ _ _ _ _ _ _ _ _ _ (Hsock k) H key); [done|].
    intros a f Hf. unfold set_undone. by rewrite lookup_insert_ne.
  - intros ins s' out key i a Hrun Ha.
    destruct (run_inv _ _ _ _ (conj Hsock Hown) Hrun) as [_ Hext].
    destruct (log_extends_lookup _ _ _ _ (Hext key) Ha) as (a' & Ha' & Hst).
    exists a'. split; [done|]. split; by apply stable_field.
Qed.

Lemma id_and_owner_immutable_witness :
  reachable demo ∧
  ∃ s' out a',
    run demo_more demo = Some (s', out) ∧
    log_at (rooms s') "R1" !! 0 = Some a' ∧
    field a' "id" = JPrim (PStr "a1") ∧
    field a' "userId" = JPrim (PStr "A").
Proof.
  split; [exact demo_reachable|].
  destruct (run demo_more demo) as [[s' out]|] eqn:E.
  - destruct (proj2 (proj2 (proj2 (proj2
                (id_and_owner_immutable demo demo_reachable))))
                demo_more s' out "R1" 0 a1 E eq_refl) as (a' & H1 & H2 & H3).
    exists s', out, a'. split; [reflexivity|]. split; [exact H1|].
    split; [exact H2|exact H3].
  - exfalso. pose proof demo_more_runs as H. rewrite E in H.
    by destruct H.
Defined.

(** * Further properties of the server *)

(** ** The user map *)

Lemma usermap_get_None (k : sid) (m : list (sid * prim)) :
  UserMap.get k m = None ↔ k ∉ (fst <$> m).
Proof.
  induction m as [|[k' v'] m IH]; simpl.
  - split; [intros _; apply not_elem_of_nil|done].
  - rewrite not_elem_of_cons. destruct (decide (k' = k)) as [->|Hne].
    + split; [done|]. by intros [? _].
    + rewrite IH. split; [by intros ?; split|by intros [_ ?]].
Qed.

Lemma usermap_get_elem (k : sid) (v : prim) (m : list (sid * prim)) :
  UserMap.get k m = Some v → (k, v) ∈ m.
Proof.
  induction m as [|[k' v'] m IH]; simpl; [done|].
  destruct (decide (k' = k)) as [->|Hne].
  - intros [= ->]. by left.
  - intros H. right. by apply IH.
Qed.

Lemma usermap_get_set_ne (k t : sid) (v : prim) (m : list (sid * prim)) :
  t ≠ k → UserMap.get t (UserMap.set k v m) = UserMap.get t m.
Proof.
  intros Hne. induction m as [|[k' v'] m IH]; simpl.
  - by rewrite decide_False.
  - destruct (decide (k' = k)) as [->|Hk]; simpl.
    + by rewrite !decide_False by done.
    + by rewrite IH.
Qed.

Lemma usermap_set_keys (k : sid) (v : prim) (m : list (sid * prim)) :
  fst <$> UserMap.set k v m
  = if decide (k ∈ (fst <$> m)) then fst <$> m else ((fst <$> m) ++ [k])%list.
Proof.
  induction m as [|[k' v'] m IH].
  - rewrite decide_False by apply not_elem_of_nil. done.
  - cbn [UserMap.set]. rewrite !fmap_cons. cbn [fst].
    destruct (decide (k' = k)) as [->|Hk].
    + rewrite decide_True by (by left). done.
    + rewrite fmap_cons, IH. cbn [fst].
      destruct (decide (k ∈ (fst <$> m))) as [Hin|Hin].
      * rewrite decide_True by (by right). done.
      * rewrite decide_False; [done|].
        rewrite not_elem_of_cons. by split.
Qed.

Lemma usermap_set_elem (k t : sid) (v u : prim) (m : list (sid * prim)) :
  (t, u) ∈ UserMap.set k v m → (t = k ∧ u = v) ∨ (t, u) ∈ m.
Proof.
  induction m as [|[k' v'] m IH]; simpl.
  - intros H. apply list_elem_of_singleton in H. injection H as -> ->. by left.
  - destruct (decide (k' = k)) as [->|Hk].
    + intros H. apply elem_of_cons in H as [H|H].
      * injection H as -> ->. by left.
      * right. by right.
    + intros H. apply elem_of_cons in H as [H|H].
      * right. rewrite H. by left.
      * destruct (IH H) as [?|?]; [by left|right; by right].
Qed.


Lemma usermap_delete_elem (k t : sid) (u : prim) (m : list (sid * prim)) :
  (t, u) ∈ UserMap.delete k m → (t, u) ∈ m.
Proof.
  induction m as [|[k' v'] m IH]; simpl; [done|].
  destruct (decide (k' = k)) as [->|Hk].
  - intros H. by right.
  - intros H. apply elem_of_cons in H as [H|H].
    + rewrite H. by left.
    + right. by apply IH.
Qed.

Lemma usermap_delete_keys (k : sid) (m : list (sid * prim)) :
  NoDup (fst <$> m) →
  NoDup (fst <$> UserMap.delete k m) ∧ k ∉ (fst <$> UserMap.delete k m).
Proof.
  induction m as [|[k' v'] m IH]; simpl.
  - intros _. split; [constructor|apply not_elem_of_nil].
  - intros Hnd. apply NoDup_cons in Hnd as [Hk' Hnd].
    destruct (decide (k' = k)) as [->|Hk]; [done|].
    destruct (IH Hnd) as [IH1 IH2]. simpl. split.
    + apply NoDup_cons. split; [|done].
      intros Hin. apply Hk'.
      apply list_elem_of_fmap in Hin as ([t u] & -> & Hin).
      apply list_elem_of_fmap. exists (t, u). split; [done|].
      by eapply usermap_delete_elem.
    + rewrite not_elem_of_cons. split; [done|done].
Qed.

Lemma usermap_get_delete_ne (k t : sid) (m : list (sid * prim)) :
  t ≠ k → UserMap.get t (UserMap.delete k m) = UserMap.get t m.
Proof.
  intros Hne. induction m as [|[k' v'] m IH]; simpl; [done|].
  destruct (decide (k' = k)) as [->|Hk]; simpl.
  - by rewrite decide_False by done.
  - by rewrite IH.
Qed.

(** Deleting the entry just added to a map that had none for the key
    gives the map back. *)
Lemma usermap_delete_set (k : sid) (v : prim) (m : list (sid * prim)) :
  UserMap.get k m = None → UserMap.delete k (UserMap.set k v m) = m.
Proof.
  induction m as [|[k' v'] m IH]; simpl.
  - by rewrite decide_True.
  - destruct (decide (k' = k)) as [->|Hk]; [done|]. simpl.
    rewrite decide_False by done. intros H. by rewrite IH.
Qed.

Lemma usermap_has_get (k : sid) (m : list (sid * prim)) :
  UserMap.has k m = true ↔ is_Some (UserMap.get k m).
Proof. unfold UserMap.has. apply bool_decide_eq_true. Qed.

Lemma usermap_delete_absent (k : sid) (m : list (sid * prim)) :
  UserMap.get k m = None → UserMap.delete k m = m.
Proof.
  induction m as [|[k' v'] m IH]; simpl; [done|].
  destruct (decide (k' = k)); [done|]. intros H. by rewrite IH.
Qed.

(** ** The shape of one step *)

Lemma on_disconnect_unbound (k : sid) (s : server) :
  truthy (socket_roomId s k) = false →
  on_disconnect k s
  = Some (Server (rooms s) (sockets s) (leave_all k (io_rooms s)), []).
Proof. unfold on_disconnect. by intros ->. Qed.

Lemma on_disconnect_bound (k : sid) (s : server) (r : room) :
  let rid := socket_roomId s k in
  let io := leave_all k (io_rooms s) in
  truthy rid = true →
  rooms s !! to_key rid = Some r →
  on_disconnect k s
  = Some (Server (<[to_key rid := Room (actions r) (clients r ∖ {[k]})
                                       (UserMap.delete k (users r))]> (rooms s))
                 (sockets s) io,
          match UserMap.get k (users r) with
          | Some u => [ socket_to io k rid (user_left u) ]
          | None => []
          end).
Proof.
  intros rid io Ht Hr. unfold on_disconnect. fold rid. fold io.
  rewrite Ht. simpl. unfold rooms_get. rewrite Hr. simpl.
  destruct (UserMap.has k (users r)) eqn:Hhas.
  - apply usermap_has_get in Hhas as [u Hu]. by rewrite Hu.
  - destruct (UserMap.get k (users r)) as [u|] eqn:Hu.
    + assert (UserMap.has k (users r) = true) as Hhas'
        by (apply usermap_has_get; by eexists).
      congruence.
    + by rewrite usermap_delete_absent.
Qed.

Lemma room_eta (r : room) : Room (actions r) (clients r) (users r) = r.
Proof. by destruct r. Qed.

Lemma gated_shape (k : sid) (actionId userId : prim) (denied : event)
    (mutate : obj → obj) (done : obj → event) (s s' : server)
    (out : list emission) :
  let key := to_key (socket_roomId s k) in
  let rm := room_at (rooms s) key in
  key ∉ object_prototype_keys →
  gated k actionId userId denied mutate done s = Some (s', out) →
  ∃ l', s' = Server (<[key := Room l' (clients rm) (users rm)]> (rooms s))
                    (sockets s) (io_rooms s).
Proof.
  intros key rm Hk. rewrite (gated_eq _ _ _ _ _ _ _ Hk). fold key. fold rm.
  intros H. repeat case_match; simplify_eq.
  - by eexists.
  - exists (actions rm). by rewrite room_eta.
  - exists (actions rm). by rewrite room_eta.
Qed.

Lemma step_shape (i : input) (s s' : server) (out : list emission) :
  keys_ok s → step i s = Some (s', out) →
  (to_key (target_room i s) ∉ object_prototype_keys) ∧ step_result i s s'.
Proof.
  intros [Hsock Hown] Hstep.
  destruct i as [k uuid roomId userId|k action|k actionId data replace userId
                |k actionId userId|k actionId userId|k]; simpl in Hstep.
  - pose proof (on_join_room_Some _ _ _ _ _ _ Hown Hstep) as Hk.
    rewrite (on_join_room_eq _ _ _ _ _ Hk) in Hstep.
    injection Hstep as <- <-. split; [done|]. by eapply sr_join.
  - split; [apply Hsock|].
    rewrite (on_add_action_eq _ _ _ (Hsock k)) in Hstep.
    injection Hstep as <- <-. by apply sr_log.
  - split; [apply Hsock|].
    destruct (gated_shape _ _ _ _ _ _ _ _ _ (Hsock k) Hstep) as [l' ->].
    by apply sr_log.
  - split; [apply Hsock|].
    destruct (gated_shape _ _ _ _ _ _ _ _ _ (Hsock k) Hstep) as [l' ->].
    by apply sr_log.
  - split; [apply Hsock|].
    destruct (gated_shape _ _ _ _ _ _ _ _ _ (Hsock k) Hstep) as [l' ->].
    by apply sr_log.
  - split; [apply Hsock|].
    destruct (truthy (socket_roomId s k)) eqn:Ht.
    + destruct (rooms s !! to_key (socket_roomId s k)) as [r|] eqn:Hr.
      * rewrite (on_disconnect_bound _ _ _ Ht Hr) in Hstep.
        injection Hstep as <- <-. by eapply sr_left.
      * unfold on_disconnect in Hstep. rewrite Ht in Hstep. simpl in Hstep.
        unfold rooms_get in Hstep. rewrite Hr in Hstep.
        rewrite decide_False in Hstep by apply Hsock. simpl in Hstep.
        injection Hstep as <- <-. by eapply sr_gone.
    + rewrite (on_disconnect_unbound _ _ Ht) in Hstep.
      injection Hstep as <- <-. by eapply sr_gone.
Qed.

(** ** Invariants of the rooms *)

Lemma room_wf_empty : room_wf empty_room.
Proof.
  split; [constructor|]. intros k u H. by apply elem_of_nil in H.
Qed.

Lemma room_wf_at (rs : gmap string room) (key : string) :
  (∀ key r, rs !! key = Some r → room_wf r) → room_wf (room_at rs key).
Proof.
  intros H. unfold room_at. destruct (rs !! key) as [r|] eqn:E; simpl.
  - by eapply H.
  - apply room_wf_empty.
Qed.

Lemma members_leave_all (io : gmap prim (gset sid)) (k t : sid) (rid : prim) :
  t ∈ members (leave_all k io) rid ↔ t ∈ members io rid ∧ t ≠ k.
Proof.
  unfold members, leave_all. rewrite lookup_fmap.
  destruct (io !! rid) as [ms|]; simpl.
  - rewrite elem_of_difference, elem_of_singleton. done.
  - split; [intros H; by apply not_elem_of_empty in H|].
    intros [H _]. by apply not_elem_of_empty in H.
Qed.

Lemma members_join (io : gmap prim (gset sid)) (k t : sid) (rid rid' : prim) :
  t ∈ members (join rid k io) rid' ↔
  t ∈ members io rid' ∨ (rid' = rid ∧ t = k).
Proof.
  unfold join, members at 1. rewrite lookup_insert.
  destruct (decide (rid = rid')) as [->|Hne]; simpl.
  - rewrite elem_of_union, elem_of_singleton. split.
    + intros [->|?]; [by right|by left].
    + intros [?|[_ ->]]; [by right|by left].
  - fold (members io rid'). split; [by left|].
    intros [?|[-> _]]; done.
Qed.

Lemma room_wf_join (k : sid) (userId : prim) (rm : room) :
  room_wf rm →
  room_wf (Room (actions rm) ({[k]} ∪ clients rm)
                (if truthy userId then UserMap.set k userId (users rm)
                 else users rm)).
Proof.
  intros [Hnd Hin]. destruct (truthy userId) eqn:Ht; split; simpl.
  - rewrite usermap_set_keys. case_decide; [done|].
    apply NoDup_app. split; [done|]. split; [|apply NoDup_singleton].
    intros x Hx Hx'. apply list_elem_of_singleton in Hx' as ->. done.
  - intros t u H. apply usermap_set_elem in H as [[-> ->]|H].
    + split; [by apply elem_of_union_l, elem_of_singleton|done].
    + destruct (Hin _ _ H). split; [by apply elem_of_union_r|done].
  - done.
  - intros t u H. destruct (Hin _ _ H). split; [by apply elem_of_union_r|done].
Qed.

Lemma room_wf_leave (k : sid) (r : room) :
  room_wf r →
  room_wf (Room (actions r) (clients r ∖ {[k]}) (UserMap.delete k (users r))).
Proof.
  intros [Hnd Hin]. destruct (usermap_delete_keys k _ Hnd) as [Hnd' Hk].
  split; simpl; [done|]. intros t u H.
  destruct (Hin _ _ (usermap_delete_elem _ _ _ _ H)) as [Hc Ht].
  split; [|done]. apply elem_of_difference. split; [done|].
  rewrite elem_of_singleton. intros ->. apply Hk.
  apply list_elem_of_fmap. by exists (k, u).
Qed.

Lemma step_rooms_inv (i : input) (s s' : server) (out : list emission) :
  keys_ok s → rooms_inv s → step i s = Some (s', out) → rooms_inv s'.
Proof.
  intros Hok (Hwf & Hbound & Hmem) Hstep.
  destruct (step_shape _ _ _ _ Hok Hstep) as [_ Hres].
  destruct Hres as [k uuid roomId userId _ rid rm|l' _ _ rm|k _|k r _ Hr];
    (split; [|split]); simpl.
  - intros key r. rewrite lookup_insert. case_decide as E.
    + intros [= <-]. by apply room_wf_join, room_wf_at.
    + apply Hwf.
  - intros t p. rewrite lookup_insert. case_decide as E.
    + intros [= <-]. simpl. rewrite lookup_insert_eq. by eexists.
    + intros Hp. rewrite lookup_insert_is_Some'. right. by eapply Hbound.
  - intros rid' t. rewrite members_join, room_at_insert.
    intros [Ht|[-> ->]].
    + case_decide as E; simpl; [|by apply Hmem].
      apply elem_of_union_r. fold rm. unfold rm. rewrite E. by apply Hmem.
    + rewrite decide_True by done. simpl.
      by apply elem_of_union_l, elem_of_singleton.
  - intros key r. rewrite lookup_insert. case_decide as E.
    + intros [= <-]. destruct (room_wf_at _ (to_key (target_room i s)) Hwf).
      by split.
    + apply Hwf.
  - intros t p Hp. rewrite lookup_insert_is_Some'. right. by eapply Hbound.
  - intros rid' t Ht. rewrite room_at_insert.
    case_decide as E; simpl; [|by apply Hmem].
    fold rm. unfold rm. rewrite E. by apply Hmem.
  - done.
  - done.
  - intros rid' t Ht. apply members_leave_all in Ht as [Ht _]. by apply Hmem.
  - intros key r'. rewrite lookup_insert. case_decide as E.
    + intros [= <-]. apply room_wf_leave. by eapply Hwf.
    + apply Hwf.
  - intros t p Hp. rewrite lookup_insert_is_Some'. right. by eapply Hbound.
  - intros rid' t Ht. apply members_leave_all in Ht as [Ht Hne].
    rewrite room_at_insert. case_decide as E; simpl; [|by apply Hmem].
    apply elem_of_difference. split; [|by rewrite elem_of_singleton].
    specialize (Hmem _ _ Ht). rewrite <- E in Hmem.
    by rewrite (room_at_Some _ _ _ Hr) in Hmem.
Qed.

Lemma rooms_inv_init : rooms_inv init.
Proof.
  split; [|split]; simpl.
  - intros key r H. by rewrite lookup_empty in H.
  - intros k p H. by rewrite lookup_empty in H.
  - intros rid t. unfold members. rewrite lookup_empty. simpl.
    intros H. by apply not_elem_of_empty in H.
Qed.

Lemma reachable_rooms_inv (s : server) : reachable s → rooms_inv s.
Proof.
  induction 1 as [|i s s' out Hreach IH Hstep]; [apply rooms_inv_init|].
  eapply step_rooms_inv; [|exact IH|exact Hstep].
  by apply reachable_keys_ok.
Qed.

(** ** Disconnection *)

Lemma leave_all_recipients (io : gmap prim (gset sid)) (k : sid) (rid : prim) :
  members (leave_all k io) rid ∖ {[k]} = members io rid ∖ {[k]}.
Proof.
  apply set_eq. intros t.
  rewrite !elem_of_difference, members_leave_all, elem_of_singleton.
  split; [by intros [[? _] ?]|by intros [? ?]].
Qed.

(** X1.  A [disconnect] of a socket that never joined a room changes no
    room and emits nothing.  A [disconnect] of a socket bound to a room
    keeps that room's log, removes the socket from its [clients] and its
    [users] and from every transport room, leaves the registrations of
    the other sockets and all other rooms alone, and emits [user-left]
    with the socket's registered user id to the rest of the room if the
    socket was registered, and nothing if it was not. *)
Theorem disconnect_unregisters (s : server) (k : sid) :
  reachable s →
  (truthy (socket_roomId s k) = false →
   ∃ s', on_disconnect k s = Some (s', []) ∧
         rooms s' = rooms s ∧ sockets s' = sockets s) ∧
  (truthy (socket_roomId s k) = true →
   let rid := socket_roomId s k in
   ∃ s' r r',
     rooms s !! to_key rid = Some r ∧
     on_disconnect k s
     = Some (s', match UserMap.get k (users r) with
                 | Some u => [ Emit (members (io_rooms s) rid ∖ {[k]})
                                    (user_left u) ]
                 | None => []
                 end) ∧
     rooms s' !! to_key rid = Some r' ∧
     actions r' = actions r ∧
     (∀ t, t ∈ clients r' ↔ t ∈ clients r ∧ t ≠ k) ∧
     UserMap.get k (users r') = None ∧
     (∀ t, t ≠ k → UserMap.get t (users r') = UserMap.get t (users r)) ∧
     (∀ room, k ∉ members (io_rooms s') room) ∧
     (∀ key, key ≠ to_key rid → rooms s' !! key = rooms s !! key) ∧
     sockets s' = sockets s).
Proof.
  intros Hreach. destruct (reachable_rooms_inv _ Hreach) as (Hwf & Hbound & _).
  split.
  - intros Ht. rewrite (on_disconnect_unbound _ _ Ht). by eexists.
  - intros Ht rid.
    assert (is_Some (rooms s !! to_key rid)) as [r Hr].
    { unfold rid, socket_roomId in *.
      destruct (sockets s !! k) as [p|] eqn:Hp; [by eapply Hbound|done]. }
    rewrite (on_disconnect_bound _ _ _ Ht Hr). fold rid.
    eexists _, r, _. split; [done|]. split.
    { destruct (UserMap.get k (users r)); [|done].
      unfold socket_to. by rewrite leave_all_recipients. }
    simpl. rewrite lookup_insert_eq. split; [done|]. simpl.
    split; [done|]. split.
    { intros t. by rewrite elem_of_difference, elem_of_singleton. }
    destruct (Hwf _ _ Hr) as [Hnd _].
    split; [apply usermap_get_None; by apply usermap_delete_keys|].
    split; [intros t Hne; by apply usermap_get_delete_ne|].
    split; [intros room Hin; by apply members_leave_all in Hin as [_ ?]|].
    split; [intros key Hne; by rewrite lookup_insert_ne|done].
Qed.

Lemma disconnect_unregisters_witness :
  reachable demo ∧
  truthy (socket_roomId demo "s1") = true ∧
  ∃ s' r r',
    on_disconnect "s1" demo
    = Some (s', match UserMap.get "s1" (users r) with
                | Some u => [ Emit (members (io_rooms demo) (PStr "R1") ∖ {[ "s1" ]})
                                   (user_left u) ]
                | None => []
                end) ∧
    rooms s' !! "R1" = Some r' ∧
    UserMap.get "s1" (users r') = None.
Proof.
  split; [exact demo_reachable|]. split; [reflexivity|].
  destruct (proj2 (disconnect_unregisters demo "s1" demo_reachable) eq_refl)
    as (s' & r & r' & _ & H1 & H2 & _ & _ & H3 & _).
  exists s', r, r'. split; [exact H1|]. split; [exact H2|exact H3].
Defined.

(** X2.  [user-left] is announced per socket, not per user: when two
    sockets of a room are registered under the same user id and one of
    them disconnects, the rest of the room is told that the user left
    although the other socket keeps that user id registered, so later
    snapshots still list it. *)
Theorem leave_notice_ignores_other_sockets (s : server) (k k' : sid)
    (r : room) (u : prim) :
  truthy (socket_roomId s k) = true →
  rooms s !! to_key (socket_roomId s k) = Some r →
  k' ≠ k →
  UserMap.get k (users r) = Some u →
  UserMap.get k' (users r) = Some u →
  ∃ s' r',
    on_disconnect k s
    = Some (s', [ Emit (members (io_rooms s) (socket_roomId s k) ∖ {[k]})
                       (user_left u) ]) ∧
    rooms s' !! to_key (socket_roomId s k) = Some r' ∧
    UserMap.get k' (users r') = Some u ∧
    u ∈ UserMap.values (users r').
Proof.
  intros Ht Hr Hne Hk Hk'.
  rewrite (on_disconnect_bound _ _ _ Ht Hr), Hk.
  eexists _, _. split.
  { unfold socket_to. by rewrite leave_all_recipients. }
  simpl. rewrite lookup_insert_eq. split; [done|]. simpl.
  assert (UserMap.get k' (UserMap.delete k (users r)) = Some u) as Hget
    by (by rewrite usermap_get_delete_ne).
  split; [done|]. by eapply usermap_get_values.
Qed.

Lemma leave_notice_ignores_other_sockets_witness :
  truthy (socket_roomId two_tabs "s1") = true ∧
  "s2" ≠ "s1" ∧
  ∃ s' r',
    on_disconnect "s1" two_tabs
    = Some (s', [ Emit (members (io_rooms two_tabs) (PStr "R1") ∖ {[ "s1" ]})
                       (user_left (PStr "A")) ]) ∧
    rooms s' !! "R1" = Some r' ∧
    PStr "A" ∈ UserMap.values (users r').
Proof.
  split; [reflexivity|]. split; [discriminate|].
  destruct (leave_notice_ignores_other_sockets two_tabs "s1" "s2"
              (Room [] {[ "s1"; "s2" ]} [ ("s1", PStr "A"); ("s2", PStr "A") ])
              (PStr "A") eq_refl eq_refl) as (s' & r' & H1 & H2 & _ & H4).
  - discriminate.
  - reflexivity.
  - reflexivity.
  - exists s', r'. split; [exact H1|]. split; [exact H2|exact H4].
Defined.

(** ** The registry over runs *)

Lemma step_result_rooms (i : input) (s s' : server) :
  step_result i s s' →
  rooms s' = rooms s ∨
  ∃ key r', rooms s' = <[key := r']> (rooms s) ∧
            (key = to_key (target_room i s)).
Proof.
  intros [k uuid roomId userId ->|l' _ _|k _|k r -> _]; simpl.
  - right. by eexists _, _.
  - right. by eexists _, _.
  - by left.
  - right. by eexists _, _.
Qed.

(** X3.  No room is ever evicted: a name that is in the registry stays in
    it along every run, whatever joins, mutations and disconnections
    follow, also when the last socket of the room has disconnected. *)
Theorem rooms_are_never_evicted (ins : list input) (s s' : server)
    (out : list emission) (key : string) :
  reachable s →
  run ins s = Some (s', out) →
  is_Some (rooms s !! key) → is_Some (rooms s' !! key).
Proof.
  intros Hreach. revert s out Hreach.
  induction ins as [|i ins IH]; intros s out Hreach; simpl.
  - by intros [= <- <-].
  - destruct (step i s) as [[s1 out1]|] eqn:Hstep; [|done].
    destruct (run ins s1) as [[s2 out2]|] eqn:Hrun; [|done].
    intros [= <- <-] Hkey.
    eapply IH; [by eapply reach_step|exact Hrun|].
    destruct (step_shape _ _ _ _ (reachable_keys_ok _ Hreach) Hstep) as [_ Hres].
    destruct (step_result_rooms _ _ _ Hres) as [->|(key' & r' & -> & _)];
      [done|].
    rewrite lookup_insert_is_Some'. by right.
Qed.

Lemma rooms_are_never_evicted_witness :
  reachable demo ∧
  ∃ s' out,
    run demo_more demo = Some (s', out) ∧
    is_Some (rooms demo !! "R1") ∧ is_Some (rooms s' !! "R1").
Proof.
  split; [exact demo_reachable|].
  destruct (run demo_more demo) as [[s' out]|] eqn:E.
  - exists s', out. split; [reflexivity|].
    assert (is_Some (rooms demo !! "R1")) as H by (by eexists).
    split; [exact H|].
    exact (rooms_are_never_evicted demo_more demo s' out "R1"
             demo_reachable E H).
  - exfalso. pose proof demo_more_runs as H. rewrite E in H.
    by destruct H.
Defined.

(** X4.  A handler touches one room and one socket: every room stored
    under another name than the one the message is about, and the
    properties of every socket other than the sender, are after the step
    what they were before. *)
Theorem step_touches_one_room (i : input) (s s' : server)
    (out : list emission) :
  reachable s →
  step i s = Some (s', out) →
  (∀ key, key ≠ to_key (target_room i s) → rooms s' !! key = rooms s !! key) ∧
  (∀ t, t ≠ sender i → sockets s' !! t = sockets s !! t).
Proof.
  intros Hreach Hstep.
  destruct (step_shape _ _ _ _ (reachable_keys_ok _ Hreach) Hstep) as [_ Hres].
  destruct Hres as [k uuid roomId userId ->|l' _ _|k ->|k r -> _]; simpl;
    split; intros x Hx; try done; by rewrite lookup_insert_ne.
Qed.

Lemma step_touches_one_room_witness :
  reachable demo ∧
  ∃ s' out,
    step (JoinRoom "s3" "uuid-3" (PStr "R2") (PStr "C")) demo = Some (s', out) ∧
    rooms s' !! "R1" = rooms demo !! "R1".
Proof.
  split; [exact demo_reachable|].
  destruct (step (JoinRoom "s3" "uuid-3" (PStr "R2") (PStr "C")) demo)
    as [[s' out]|] eqn:E.
  - exists s', out. split; [reflexivity|].
    refine (proj1 (step_touches_one_room _ demo s' out demo_reachable E) "R1" _).
    discriminate.
  - exfalso. vm_compute in E. discriminate E.
Defined.

(** X5.  Emissions stay in the room: whoever receives an event emitted by
    a handler is the sender of the message or a socket that was, before
    the step, in the transport room the message is about. *)
Theorem emissions_stay_in_room (i : input) (s s' : server)
    (out : list emission) (e : emission) (t : sid) :
  reachable s →
  step i s = Some (s', out) →
  e ∈ out → t ∈ recipients e →
  t = sender i ∨ t ∈ members (io_rooms s) (target_room i s).
Proof.
  intros Hreach Hstep He Ht.
  pose proof (reachable_keys_ok _ Hreach) as Hok.
  destruct (step_shape _ _ _ _ Hok Hstep) as [Hk _].
  destruct Hok as [Hsock Hown].
  assert (∀ k actionId userId denied mutate done,
    gated k actionId userId denied mutate done s = Some (s', out) →
    t = k ∨ t ∈ members (io_rooms s) (socket_roomId s k)) as Hgated.
  { intros k actionId userId denied mutate done.
    rewrite (gated_eq _ _ _ _ _ _ _ (Hsock k)). intros H.
    repeat case_match; simplify_eq.
    - apply list_elem_of_singleton in He as ->. by right.
    - apply list_elem_of_singleton in He as ->. simpl in Ht.
      apply elem_of_singleton in Ht. by left.
    - by apply elem_of_nil in He. }
  destruct i as [k uuid roomId userId|k action|k actionId data replace userId
                |k actionId userId|k actionId userId|k]; simpl in *.
  - rewrite (on_join_room_eq _ _ _ _ _ Hk) in Hstep. injection Hstep as <- <-.
    apply elem_of_cons in He as [->|He].
    + simpl in Ht. apply elem_of_singleton in Ht. by left.
    + apply list_elem_of_singleton in He as ->. simpl in Ht.
      apply elem_of_difference in Ht as [Ht Hne].
      apply members_join in Ht as [Ht|[_ ->]]; [by right|by left].
  - rewrite (on_add_action_eq _ _ _ (Hsock k)) in Hstep.
    injection Hstep as <- <-.
    apply list_elem_of_singleton in He as ->. simpl in Ht.
    apply elem_of_difference in Ht as [Ht _]. by right.
  - by eapply Hgated.
  - by eapply Hgated.
  - by eapply Hgated.
  - destruct (truthy (socket_roomId s k)) eqn:Htr.
    + destruct (rooms s !! to_key (socket_roomId s k)) as [r|] eqn:Hr.
      * rewrite (on_disconnect_bound _ _ _ Htr Hr) in Hstep.
        injection Hstep as <- <-.
        destruct (UserMap.get k (users r)); [|by apply elem_of_nil in He].
        apply list_elem_of_singleton in He as ->. simpl in Ht.
        apply elem_of_difference in Ht as [Ht _].
        apply members_leave_all in Ht as [Ht _]. by right.
      * unfold on_disconnect in Hstep. rewrite Htr in Hstep. simpl in Hstep.
        unfold rooms_get in Hstep. rewrite Hr in Hstep.
        rewrite decide_False in Hstep by apply Hsock. simpl in Hstep.
        injection Hstep as <- <-. by apply elem_of_nil in He.
    + rewrite (on_disconnect_unbound _ _ Htr) in Hstep.
      injection Hstep as <- <-. by apply elem_of_nil in He.
Qed.

Lemma emissions_stay_in_room_witness :
  reachable demo ∧
  ∃ s' e,
    step (AddAction "s1" a1) demo = Some (s', [ e ]) ∧
    ∀ t, t ∈ recipients e →
         t = "s1" ∨ t ∈ members (io_rooms demo) (PStr "R1").
Proof.
  split; [exact demo_reachable|].
  exists (Server (<["R1" := Room [a1; a1] {[ "s1"; "s2" ]}
                               [ ("s1", PStr "A"); ("s2", PStr "B") ]]>
                   (rooms demo)) (sockets demo) (io_rooms demo)),
         (socket_to (io_rooms demo) "s1" (PStr "R1") (action_added a1)).
  assert (step (AddAction "s1" a1) demo
          = Some (Server (<["R1" := Room [a1; a1] {[ "s1"; "s2" ]}
                               [ ("s1", PStr "A"); ("s2", PStr "B") ]]>
                   (rooms demo)) (sockets demo) (io_rooms demo),
                  [ socket_to (io_rooms demo) "s1" (PStr "R1")
                      (action_added a1) ])) as E by reflexivity.
  split; [exact E|]. intros t Ht.
  exact (emissions_stay_in_room _ demo _ _ _ t demo_reachable E
           (list_elem_of_here _ _) Ht).
Defined.

(** ** The user id stored on the socket *)

Lemma agree_frame (r : gmap string room) (so1 so2 : gmap sid socket_props)
    (io1 : gmap prim (gset sid)) (r' : gmap string room)
    (io' : gmap prim (gset sid)) :
  agree (Server r so1 io1) (Server r so2 io1) →
  agree (Server r' so1 io') (Server r' so2 io').
Proof. intros (_ & _ & H). by split; [|split]. Qed.

(** X6.  The [userId] that [join-room] stores on the socket is never
    read: on two states that differ only in those stored user ids, every
    handler either raises on both or returns on both, with the same
    emissions and with states that again differ only in them.  Ownership
    is checked against the [userId] field of the message alone. *)
Theorem handlers_ignore_socket_userId (i : input) (s1 s2 : server) :
  agree s1 s2 →
  match step i s1, step i s2 with
  | Some (s1', out1), Some (s2', out2) => agree s1' s2' ∧ out1 = out2
  | None, None => True
  | _, _ => False
  end.
Proof.
  destruct s1 as [r so1 io1], s2 as [r2 so2 io2].
  intros Hag. pose proof Hag as (Hr & Hio & Hs). simpl in Hr, Hio.
  subst r2 io2.
  assert (∀ k actionId userId denied mutate done,
    match gated k actionId userId denied mutate done (Server r so1 io1),
          gated k actionId userId denied mutate done (Server r so2 io1) with
    | Some (s1', out1), Some (s2', out2) => agree s1' s2' ∧ out1 = out2
    | None, None => True
    | _, _ => False
    end) as Hgated.
  { intros k actionId userId denied mutate done. unfold gated. simpl.
    rewrite <- (Hs k).
    destruct (ensureRoom _ r) as [rs sl].
    destruct sl as [rm| |]; simpl; [|done|].
    - destruct (findIndex _ (actions rm)) as [idx|].
      + destruct (actions rm !! idx) as [a|]; [|done].
        destruct (strict_eq (field a "userId") userId); simpl;
          (split; [by eapply agree_frame|done]).
      + split; [by eapply agree_frame|done].
    - split; [by eapply agree_frame|done]. }
  destruct i as [k uuid roomId userId|k action|k actionId data replace userId
                |k actionId userId|k actionId userId|k]; simpl.
  - unfold on_join_room. simpl.
    destruct (ensureRoom _ r) as [rs sl]. destruct sl as [rm| |]; [|done|done].
    split; [|done]. split; [done|]. split; [done|].
    intros t. unfold socket_roomId. simpl. rewrite !lookup_insert.
    case_decide; [done|]. apply (Hs t).
  - unfold on_add_action. simpl. rewrite <- (Hs k).
    destruct (ensureRoom _ r) as [rs sl].
    destruct sl as [rm| |]; simpl; [|done|];
      (split; [by eapply agree_frame|done]).
  - apply Hgated.
  - apply Hgated.
  - apply Hgated.
  - unfold on_disconnect. simpl. rewrite <- (Hs k).
    destruct (truthy _); simpl; [|split; [by eapply agree_frame|done]].
    destruct (rooms_get r _) as [rm| |]; simpl; [|done|].
    + destruct (UserMap.has k (users rm));
        (split; [by eapply agree_frame|done]).
    + split; [by eapply agree_frame|done].
Qed.

Lemma demo_agree : agree demo demo_as_A.
Proof.
  split; [done|]. split; [done|]. intros k. unfold socket_roomId. simpl.
  destruct (decide (k = "s1")) as [->|H1]; [reflexivity|].
  destruct (decide (k = "s2")) as [->|H2]; [reflexivity|].
  by rewrite !lookup_insert_ne, !lookup_singleton_ne by done.
Qed.

Lemma handlers_ignore_socket_userId_witness :
  agree demo demo_as_A ∧
  match step (UndoAction "s2" (PStr "a1") (PStr "B")) demo,
        step (UndoAction "s2" (PStr "a1") (PStr "B")) demo_as_A with
  | Some (s1', out1), Some (s2', out2) => agree s1' s2' ∧ out1 = out2
  | None, None => True
  | _, _ => False
  end.
Proof.
  split; [exact demo_agree|].
  exact (handlers_ignore_socket_userId
           (UndoAction "s2" (PStr "a1") (PStr "B")) demo demo_as_A demo_agree).
Defined.

(** ** Joining, again *)





(** X11.  Besides the snapshot, [join-room] emits exactly one more event,
    [user-joined] with the user id as it was sent (also a falsy one, which
    is not registered), to exactly the sockets that were in the transport
    room before the join, the joiner excepted. *)
Theorem join_notifies_the_others (s : server) (k : sid) (uuid : string)
    (roomId userId : prim) :
  let rid := joined_roomId uuid roomId in
  to_key rid ∉ object_prototype_keys →
  ∃ s' snapshot notice,
    on_join_room k uuid roomId userId s = Some (s', [ snapshot; notice ]) ∧
    recipients snapshot = {[k]} ∧
    payload notice = user_joined userId ∧
    (∀ t, t ∈ recipients notice ↔ t ∈ members (io_rooms s) rid ∧ t ≠ k).
Proof.
  intros rid Hk. rewrite (on_join_room_eq _ _ _ _ _ Hk). fold rid.
  eexists _, _, _. split; [reflexivity|]. split; [done|]. split; [done|].
  intros t. simpl. rewrite elem_of_difference, elem_of_singleton, members_join.
  split; [|by intros [? ?]; split; [left|]].
  intros [[?|[_ ?]] ?]; done.
Qed.

Lemma join_notifies_the_others_witness :
  (to_key (joined_roomId "uuid-3" (PStr "R1")) ∉ object_prototype_keys) ∧
  ∃ s' snapshot notice,
    on_join_room "s3" "uuid-3" (PStr "R1") PUndefined demo
    = Some (s', [ snapshot; notice ]) ∧
    payload notice = user_joined PUndefined ∧
    (∀ t, t ∈ recipients notice ↔
          t ∈ members (io_rooms demo) (PStr "R1") ∧ t ≠ "s3").
Proof.
  assert (to_key (joined_roomId "uuid-3" (PStr "R1")) ∉ object_prototype_keys)
    as Hk by (apply (bool_decide_unpack _); exact I).
  split; [exact Hk|].
  destruct (join_notifies_the_others demo "s3" "uuid-3" (PStr "R1") PUndefined Hk)
    as (s' & snapshot & notice & H1 & _ & H3 & H4).
  exists s', snapshot, notice. split; [exact H1|]. split; [exact H3|exact H4].
Defined.

(** ** Bookkeeping invariants *)

(** X8.  In every room of a reachable state, [users] holds at most one
    entry per socket id, every socket with an entry is in [clients], and
    every registered user id is truthy; so a snapshot never lists more
    participants than the room has clients. *)
Theorem registered_users_invariant (s : server) (key : string) (r : room) :
  reachable s →
  rooms s !! key = Some r →
  NoDup (fst <$> users r) ∧
  (∀ k u, (k, u) ∈ users r → k ∈ clients r ∧ truthy u = true) ∧
  (length (UserMap.values (users r)) ≤ size (clients r))%nat.
Proof.
  intros Hreach Hr.
  destruct (reachable_rooms_inv _ Hreach) as (Hwf & _ & _).
  destruct (Hwf _ _ Hr) as [Hnd Hin]. split; [done|]. split; [done|].
  unfold UserMap.values. rewrite length_fmap, <- (length_fmap fst).
  rewrite <- (size_list_to_set (C := gset sid)) by done.
  apply subseteq_size. intros k Hk.
  apply elem_of_list_to_set, list_elem_of_fmap in Hk as ([k' u] & -> & Hku).
  by apply (Hin _ _ Hku).
Qed.

Lemma registered_users_invariant_witness :
  reachable demo ∧
  rooms demo !! "R1"
  = Some (Room [a1] {[ "s1"; "s2" ]} [ ("s1", PStr "A"); ("s2", PStr "B") ]) ∧
  (length (UserMap.values [ ("s1", PStr "A"); ("s2", PStr "B") ])
   ≤ size ({[ "s1"; "s2" ]} : gset sid))%nat.
Proof.
  split; [exact demo_reachable|]. split; [reflexivity|].
  exact (proj2 (proj2 (registered_users_invariant demo "R1" _
                         demo_reachable eq_refl))).
Defined.



(** ** Duplicate ids *)

Lemma findIndex_le {A} (p : A → bool) (l : list A) (i : nat) (x : A) :
  l !! i = Some x → p x = true →
  ∃ idx, findIndex p l = Some idx ∧ (idx ≤ i)%nat.
Proof.
  revert i. induction l as [|y l IH]; intros i; [done|]. simpl.
  destruct (p y) eqn:Hy; [intros _ _; exists 0%nat; split; [done|lia]|].
  destruct i as [|i]; simpl.
  - intros [= ->] Hx. congruence.
  - intros Hi Hx. destruct (IH _ Hi Hx) as (idx & -> & Hle).
    exists (S idx). split; [done|lia].
Qed.

(** X10.  [findIndex] stops at the first entry with the requested id, so
    an entry that comes after another entry with the same id can never be
    reached: whoever claims what, [update-action], [undo-action] and
    [redo-action] for that id return and leave the later entry exactly as
    it is. *)
Theorem shadowed_duplicate_is_never_mutated (s : server) (k : sid)
    (actionId claimed : prim) (data replace : jsval) (i j : nat) (a b : obj) :
  log_of s k !! i = Some a →
  strict_eq (field a "id") actionId = true →
  (i < j)%nat →
  log_of s k !! j = Some b →
  ∃ s1 s2 s3 o1 o2 o3,
    on_update_action k actionId data replace claimed s = Some (s1, o1) ∧
    on_undo_action k actionId claimed s = Some (s2, o2) ∧
    on_redo_action k actionId claimed s = Some (s3, o3) ∧
    log_of s1 k !! j = Some b ∧
    log_of s2 k !! j = Some b ∧
    log_of s3 k !! j = Some b.
Proof.
  intros Ha Hid Hij Hb.
  destruct (findIndex_le (λ x, strict_eq (field x "id") actionId) _ _ _ Ha Hid)
    as (idx & Hidx & Hle).
  destruct (findIndex_Some _ _ _ Hidx) as (a0 & Ha0 & _).
  assert (∀ denied mutate done, ∃ s' out,
    gated k actionId claimed denied mutate done s = Some (s', out) ∧
    log_of s' k !! j = Some b) as Hg.
  { intros denied mutate done.
    destruct (strict_eq (field a0 "userId") claimed) eqn:Ho;
      [apply strict_eq_true in Ho|apply strict_eq_false in Ho].
    - rewrite (proj1 (gated_gate _ _ _ _ _ _ _ _ _ Hidx Ha0) Ho).
      eexists _, _. split; [reflexivity|].
      rewrite log_of_with_entry, list_lookup_insert_ne by lia. done.
    - rewrite (proj2 (gated_gate _ _ _ _ _ _ _ _ _ Hidx Ha0) Ho).
      by eexists _, _. }
  unfold on_update_action, on_undo_action, on_redo_action.
  destruct (Hg (update_denied actionId "not-owner") (update_data data replace)
              (λ action, action_updated actionId (field action "data")))
    as (s1 & o1 & H1 & L1).
  destruct (Hg (undo_denied actionId "not-owner") (set_undone true)
              (λ _, action_undone actionId claimed)) as (s2 & o2 & H2 & L2).
  destruct (Hg (redo_denied actionId "not-owner") (set_undone false)
              (λ _, action_redone actionId claimed)) as (s3 & o3 & H3 & L3).
  by exists s1, s2, s3, o1, o2, o3.
Qed.

Lemma shadowed_duplicate_is_never_mutated_witness :
  log_of demo_dup "s2" !! 0%nat = Some a1 ∧
  strict_eq (field a1 "id") (PStr "a1") = true ∧
  (0 < 1)%nat ∧
  log_of demo_dup "s2" !! 1%nat = Some a1_again ∧
  ∃ s2 o2,
    on_undo_action "s2" (PStr "a1") (PStr "B") demo_dup = Some (s2, o2) ∧
    log_of s2 "s2" !! 1%nat = Some a1_again.
Proof.
  split; [reflexivity|]. split; [reflexivity|]. split; [lia|].
  split; [reflexivity|].
  destruct (shadowed_duplicate_is_never_mutated demo_dup "s2" (PStr "a1")
              (PStr "B") (JPrim PUndefined) (JPrim PUndefined) 0 1 a1 a1_again
              eq_refl eq_refl (le_n 1) eq_refl)
    as (s1 & s2 & s3 & o1 & o2 & o3 & _ & H2 & _ & _ & L2 & _).
  exists s2, o2. split; [exact H2|exact L2].
Defined.

(** ** Join followed by disconnect *)

(** X12.  Joining and leaving cancel out on the room: when a socket that
    is not among the clients of a room joins it (under a truthy room
    name) and then disconnects, the room's log, clients and users are
    what they were before the join; the room stays in the registry. *)
Theorem join_then_disconnect_restores_room (s s2 : server) (k : sid)
    (uuid : string) (roomId userId : prim) (out : list emission) :
  let rid := joined_roomId uuid roomId in
  reachable s →
  truthy rid = true →
  k ∉ clients (room_at (rooms s) (to_key rid)) →
  run [ JoinRoom k uuid roomId userId; Disconnect k ] s = Some (s2, out) →
  rooms s2 !! to_key rid = Some (room_at (rooms s) (to_key rid)).
Proof.
  intros rid Hreach Htruthy Hfresh. simpl.
  destruct (on_join_room k uuid roomId userId s) as [[s1 out1]|] eqn:Hjoin;
    [|done].
  destruct (reachable_keys_ok _ Hreach) as [_ Hown].
  pose proof (on_join_room_Some _ _ _ _ _ _ Hown Hjoin) as Hk.
  rewrite (on_join_room_eq _ _ _ _ _ Hk) in Hjoin. fold rid in Hjoin.
  injection Hjoin as <- <-.
  set (rm := room_at (rooms s) (to_key rid)) in *.
  assert (UserMap.get k (users rm) = None) as Hnone.
  { destruct (reachable_rooms_inv _ Hreach) as (Hwf & _ & _).
    destruct (room_wf_at _ (to_key rid) Hwf) as [_ Hin]. fold rm in Hin.
    destruct (UserMap.get k (users rm)) as [u|] eqn:Hu; [|done].
    destruct (Hin _ _ (usermap_get_elem _ _ _ Hu)). done. }
  match goal with
  | |- context [on_disconnect k ?S] =>
      assert (socket_roomId S k = rid) as Hrid
        by (unfold socket_roomId; simpl; by rewrite lookup_insert_eq);
      rewrite (on_disconnect_bound k S
                 (Room (actions rm) ({[k]} ∪ clients rm)
                       (if truthy userId then UserMap.set k userId (users rm)
                        else users rm)))
  end.
  - intros [= <- <-]. simpl. rewrite Hrid, lookup_insert_eq. f_equal.
    etransitivity; [|apply room_eta]. simpl. f_equal.
    + apply set_eq. intros t.
      rewrite elem_of_difference, elem_of_union, elem_of_singleton.
      split; [by intros [[->|?] ?]|]. intros Ht. split; [by right|].
      by intros ->.
    + destruct (truthy userId).
      * by apply usermap_delete_set.
      * by apply usermap_delete_absent.
  - by rewrite Hrid.
  - rewrite Hrid. simpl. by rewrite lookup_insert_eq.
Qed.

Lemma join_then_disconnect_restores_room_witness :
  reachable demo ∧
  truthy (joined_roomId "uuid-3" (PStr "R1")) = true ∧
  ("s3" ∉ clients (room_at (rooms demo) "R1")) ∧
  ∃ s2 out,
    run [ JoinRoom "s3" "uuid-3" (PStr "R1") (PStr "C"); Disconnect "s3" ] demo
    = Some (s2, out) ∧
    rooms s2 !! "R1" = Some (room_at (rooms demo) "R1").
Proof.
  assert ("s3" ∉ clients (room_at (rooms demo) "R1")) as Hfresh
    by (apply (bool_decide_unpack _); exact I).
  split; [exact demo_reachable|]. split; [reflexivity|]. split; [exact Hfresh|].
  destruct (run [ JoinRoom "s3" "uuid-3" (PStr "R1") (PStr "C");
                  Disconnect "s3" ] demo) as [[s2 out]|] eqn:E.
  - exists s2, out. split; [reflexivity|].
    exact (join_then_disconnect_restores_room demo s2 "s3" "uuid-3" (PStr "R1")
             (PStr "C") out demo_reachable eq_refl Hfresh E).
  - exfalso. vm_compute in E. discriminate E.
Defined.

(** * Properties of the client *)

(** ** The list of peers *)

Lemma set_add_elem (x y : prim) (l : list prim) :
  y ∈ Client.set_add x l ↔ y ∈ l ∨ y = x.
Proof.
  unfold Client.set_add. case_decide as Hx.
  - split; [by left|]. intros [?| ->]; done.
  - rewrite elem_of_app, list_elem_of_singleton. done.
Qed.

Lemma set_add_NoDup (x : prim) (l : list prim) :
  NoDup l → NoDup (Client.set_add x l).
Proof.
  intros Hnd. unfold Client.set_add. case_decide as Hx; [done|].
  apply NoDup_app. split; [done|]. split; [|apply NoDup_singleton].
  intros y Hy Hy'. apply list_elem_of_singleton in Hy' as ->. done.
Qed.

Lemma set_of_spec (l acc : list prim) :
  NoDup acc →
  NoDup (foldl (λ acc x, Client.set_add x acc) acc l) ∧
  ∀ y, y ∈ foldl (λ acc x, Client.set_add x acc) acc l ↔ y ∈ acc ∨ y ∈ l.
Proof.
  revert acc. induction l as [|x l IH]; intros acc Hnd; simpl.
  - split; [done|]. intros y. split; [by left|].
    intros [?|H]; [done|by apply elem_of_nil in H].
  - destruct (IH _ (set_add_NoDup x _ Hnd)) as [IH1 IH2].
    split; [done|]. intros y. rewrite IH2, set_add_elem, elem_of_cons.
    split.
    + intros [[?| ->]|?]; [by left|right; by left|right; by right].
    + intros [?|[ ->|?]]; [left; by left|left; by right|by right].
Qed.

(** X13.  Whatever events arrive, in whatever order, the client's list of
    peers never holds a user id twice and always holds the client's own
    user id. *)
Theorem peers_stay_unique (userId : prim) (es : list event) :
  let v := foldl (λ v e, Client.on_event userId e v) (Client.initial userId) es in
  NoDup (Client.peers v) ∧ userId ∈ Client.peers v.
Proof.
  assert (∀ v, NoDup (Client.peers v) ∧ userId ∈ Client.peers v →
    let v' := foldl (λ v e, Client.on_event userId e v) v es in
    NoDup (Client.peers v') ∧ userId ∈ Client.peers v') as Hgen.
  { induction es as [|e es IH]; intros v Hv; [done|]. simpl.
    apply IH. destruct Hv as [Hnd Hme].
    destruct e as [rid acts parts|joined|a|aid rs|aid d|aid rs|aid u|aid rs
                  |aid u|leftId]; simpl; try done.
    - split.
      + apply set_add_NoDup. by apply (set_of_spec parts []), NoDup_nil.
      + apply set_add_elem. by right.
    - destruct (negb (truthy joined) || bool_decide (joined = userId));
        [done|]. simpl. case_decide as Hin; [done|]. split.
      + apply NoDup_app. split; [done|]. split; [|apply NoDup_singleton].
        intros y Hy Hy'. apply list_elem_of_singleton in Hy' as ->. done.
      + apply elem_of_app. by left.
    - destruct (bool_decide (leftId = userId)) eqn:Hl;
        [by rewrite orb_true_r|].
      destruct (negb (truthy leftId)); [done|]. simpl.
      apply bool_decide_eq_false in Hl. split.
      + by apply NoDup_filter.
      + apply list_elem_of_filter. split; [congruence|done]. }
  apply Hgen. simpl. split; [apply NoDup_singleton|by apply list_elem_of_singleton].
Qed.

(** X14.  On [room-state] the client replaces its actions by the
    snapshot's and its peers by the participants of the snapshot without
    repetitions, plus its own user id: the duplicates the server leaves in
    the list are removed here. *)
Theorem room_state_resets_view (userId roomId : prim) (serverActions : list obj)
    (participants : list prim) (v : Client.view) :
  let v' := Client.on_event userId
              (room_state roomId serverActions participants) v in
  Client.actions v' = serverActions ∧
  NoDup (Client.peers v') ∧
  ∀ u, u ∈ Client.peers v' ↔ u ∈ participants ∨ u = userId.
Proof.
  simpl. split; [done|].
  destruct (set_of_spec participants [] (NoDup_nil_2)) as [Hnd Hin].
  split; [by apply set_add_NoDup|].
  intros u. rewrite set_add_elem. unfold Client.set_of. rewrite Hin.
  split.
  - intros [[H|?]|?]; [by apply elem_of_nil in H|by left|by right].
  - intros [?|?]; [left; by right|by right].
Qed.

(** ** The list of actions *)

Lemma strict_eq_val_prim (v : jsval) (p : prim) :
  Client.strict_eq_val v (JPrim p) = strict_eq v p.
Proof. by destruct v. Qed.

(** X15.  [action-added] is de-duplicated by id: the list an event is
    applied to is a prefix of the result; when an entry already has the
    (primitive) id of the incoming action the list is unchanged; and
    applying the same [action-added] twice is the same as applying it
    once. *)
Theorem action_added_is_deduplicated (userId p : prim) (action : obj)
    (v : Client.view) :
  field action "id" = JPrim p →
  let v1 := Client.on_event userId (action_added action) v in
  Client.actions v `prefix_of` Client.actions v1 ∧
  ((∃ a, a ∈ Client.actions v ∧ field a "id" = JPrim p) →
   Client.actions v1 = Client.actions v) ∧
  ((∀ a, a ∈ Client.actions v → field a "id" ≠ JPrim p) →
   Client.actions v1 = (Client.actions v ++ [action])%list) ∧
  Client.on_event userId (action_added action) v1 = v1.
Proof.
  intros Hid. simpl. rewrite Hid.
  destruct (existsb _ (Client.actions v)) eqn:Hex.
  - split; [done|]. split; [done|]. split.
    + intros Hno. apply existsb_exists in Hex as (a & Ha & Heq).
      rewrite strict_eq_val_prim in Heq. apply strict_eq_true in Heq.
      apply list_elem_of_In in Ha. by destruct (Hno a Ha).
    + simpl. by rewrite Hex.
  - split; [by eexists|]. split.
    + intros (a & Ha & Heq).
      assert (existsb (λ a, Client.strict_eq_val (field a "id") (JPrim p))
                      (Client.actions v) = true) as Hex'.
      { apply existsb_exists. exists a. split; [by apply list_elem_of_In|].
        rewrite strict_eq_val_prim. by apply strict_eq_true. }
      congruence.
    + split; [done|]. simpl. rewrite existsb_app. simpl. rewrite Hid. simpl.
      rewrite bool_decide_eq_true_2 by done. by rewrite orb_true_r.
Qed.

Lemma action_added_is_deduplicated_witness :
  field a1 "id" = JPrim (PStr "a1") ∧
  Client.on_event (PStr "B") (action_added a1)
    (Client.on_event (PStr "B") (action_added a1) (Client.initial (PStr "B")))
  = Client.on_event (PStr "B") (action_added a1) (Client.initial (PStr "B")).
Proof.
  split; [reflexivity|].
  exact (proj2 (proj2 (proj2 (action_added_is_deduplicated (PStr "B")
           (PStr "a1") a1 (Client.initial (PStr "B")) eq_refl)))).
Defined.

Lemma fmap_twice_id {A} (f : A → A) (l : list A) :
  (∀ x, f (f x) = f x) → f <$> (f <$> l) = f <$> l.
Proof.
  intros H. rewrite <- list_fmap_compose. apply list_fmap_ext.
  intros i x _. apply H.
Qed.

Lemma patch_twice (actionId : prim) (f : string) (val : jsval) (a : obj) :
  f ≠ "id" →
  let g := λ action : obj, if strict_eq (field action "id") actionId
                           then <[f := val]> action else action in
  g (g a) = g a.
Proof.
  intros Hf g. unfold g. destruct (strict_eq (field a "id") actionId) eqn:E.
  - unfold field. rewrite lookup_insert_ne by done. fold (field a "id").
    rewrite E. by rewrite insert_insert_eq.
  - by rewrite E.
Qed.

(** X16.  The three mutation events are idempotent at the receiver:
    applying [action-undone], [action-redone] or [action-updated] a second
    time changes nothing. *)
Theorem mutation_events_are_idempotent (userId actionId claimed : prim)
    (data : jsval) (v : Client.view) :
  let undone := action_undone actionId claimed in
  let redone := action_redone actionId claimed in
  let updated := action_updated actionId data in
  Client.on_event userId undone (Client.on_event userId undone v)
  = Client.on_event userId undone v ∧
  Client.on_event userId redone (Client.on_event userId redone v)
  = Client.on_event userId redone v ∧
  Client.on_event userId updated (Client.on_event userId updated v)
  = Client.on_event userId updated v.
Proof.
  simpl. repeat split; f_equal; apply fmap_twice_id; intros a;
    by apply patch_twice.
Qed.

(** ** The client's copy and the server's log *)

Lemma patch_only_at (l : list obj) (actionId : prim) (idx : nat) (a : obj)
    (f : obj → obj) :
  only_at l actionId idx →
  l !! idx = Some a →
  strict_eq (field a "id") actionId = true →
  (λ action, if strict_eq (field action "id") actionId then f action
             else action) <$> l
  = <[idx := f a]> l.
Proof.
  intros Honly Ha Hid. apply list_eq. intros j.
  rewrite list_lookup_fmap.
  destruct (decide (j = idx)) as [->|Hne].
  - rewrite list_lookup_insert_eq by (by eapply lookup_lt_Some).
    rewrite Ha. simpl. by rewrite Hid.
  - rewrite list_lookup_insert_ne by done.
    destruct (l !! j) as [b|] eqn:Hb; [|done]. simpl.
    destruct (strict_eq (field b "id") actionId) eqn:E; [|done].
    by destruct (Hne (Honly _ _ Hb E)).
Qed.

(** X17.  The client follows the server: if the client's actions equal
    the log of the room and the id of the message occurs in it only at
    the entry the server finds, then applying the event that an accepted
    [update-action], [undo-action] or [redo-action] broadcasts makes the
    client's actions equal the server's new log. *)
Theorem client_follows_mutations (s : server) (k : sid)
    (actionId claimed me : prim) (data replace : jsval) (idx : nat) (a : obj)
    (ps : list prim) :
  findIndex (λ x, strict_eq (field x "id") actionId) (log_of s k) = Some idx →
  log_of s k !! idx = Some a →
  field a "userId" = JPrim claimed →
  only_at (log_of s k) actionId idx →
  let v := Client.View (log_of s k) ps in
  (∃ s' e,
     on_update_action k actionId data replace claimed s = Some (s', [ e ]) ∧
     Client.actions (Client.on_event me (payload e) v) = log_of s' k) ∧
  (∃ s' e,
     on_undo_action k actionId claimed s = Some (s', [ e ]) ∧
     Client.actions (Client.on_event me (payload e) v) = log_of s' k) ∧
  (∃ s' e,
     on_redo_action k actionId claimed s = Some (s', [ e ]) ∧
     Client.actions (Client.on_event me (payload e) v) = log_of s' k).
Proof.
  intros Hi Ha Ho Honly v.
  destruct (findIndex_Some _ _ _ Hi) as (a0 & Ha0 & Hid).
  rewrite Ha in Ha0. injection Ha0 as <-.
  unfold on_update_action, on_undo_action, on_redo_action.
  rewrite !(proj1 (gated_gate _ _ _ _ _ _ _ _ _ Hi Ha) Ho).
  repeat split; eexists _, _; (split; [reflexivity|]); simpl;
    rewrite log_of_with_entry;
    rewrite (patch_only_at _ _ _ _ _ Honly Ha Hid); [|done|done].
  unfold update_data at 2. f_equal.
  unfold field at 1, update_data. by rewrite lookup_insert_eq.
Qed.

Lemma only_at_demo : only_at (log_of demo "s1") (PStr "a1") 0.
Proof.
  intros j b Hb _. destruct j as [|j]; [done|]. by destruct j.
Qed.

Lemma client_follows_mutations_witness :
  findIndex (λ x, strict_eq (field x "id") (PStr "a1")) (log_of demo "s1") = Some 0%nat ∧
  log_of demo "s1" !! 0%nat = Some a1 ∧
  field a1 "userId" = JPrim (PStr "A") ∧
  only_at (log_of demo "s1") (PStr "a1") 0 ∧
  ∃ s' e,
    on_undo_action "s1" (PStr "a1") (PStr "A") demo = Some (s', [ e ]) ∧
    Client.actions (Client.on_event (PStr "B") (payload e)
                      (Client.View (log_of demo "s1") [ PStr "B"; PStr "A" ]))
    = log_of s' "s1".
Proof.
  split; [reflexivity|]. split; [reflexivity|]. split; [reflexivity|].
  split; [exact only_at_demo|].
  exact (proj1 (proj2 (client_follows_mutations demo "s1" (PStr "a1") (PStr "A")
           (PStr "B") (JPrim PUndefined) (JPrim PUndefined) 0 a1
           [ PStr "B"; PStr "A" ] eq_refl eq_refl eq_refl only_at_demo))).
Defined.

(** X18.  For [add-action] the client follows the server only for a new
    id.  If no entry of the log has the id of the new action, applying
    the broadcast [action-added] to a copy of the log gives the server's
    new log; if some entry already has that (primitive) id, the server
    appends the action all the same while the client drops it, and the
    client's copy is one entry short from then on. *)
Theorem client_follows_add (s : server) (k : sid) (action : obj) (me : prim)
    (ps : list prim) :
  reachable s →
  let v := Client.View (log_of s k) ps in
  ∃ s' e,
    on_add_action k action s = Some (s', [ e ]) ∧
    log_of s' k = (log_of s k ++ [action])%list ∧
    ((∀ b, b ∈ log_of s k →
           Client.strict_eq_val (field b "id") (field action "id") = false) →
     Client.actions (Client.on_event me (payload e) v) = log_of s' k) ∧
    ((∃ b, b ∈ log_of s k ∧
           Client.strict_eq_val (field b "id") (field action "id") = true) →
     Client.actions (Client.on_event me (payload e) v) = log_of s k).
Proof.
  intros Hreach v. destruct (reachable_keys_ok _ Hreach) as [Hsock _].
  rewrite (on_add_action_eq _ _ _ (Hsock k)).
  eexists _, _. split; [reflexivity|].
  assert (log_of (Server (<[to_key (socket_roomId s k) :=
            Room (actions (room_at (rooms s) (to_key (socket_roomId s k)))
                    ++ [action])%list
                 (clients (room_at (rooms s) (to_key (socket_roomId s k))))
                 (users (room_at (rooms s) (to_key (socket_roomId s k))))]>
            (rooms s)) (sockets s) (io_rooms s)) k
          = (log_of s k ++ [action])%list) as Hlog.
  { unfold log_of, socket_roomId. simpl. by rewrite log_at_insert, decide_True. }
  split; [exact Hlog|]. simpl. split.
  - intros Hnew. rewrite Hlog.
    destruct (existsb _ (log_of s k)) eqn:Hex; [|done].
    apply existsb_exists in Hex as (b & Hb & Heq).
    apply list_elem_of_In in Hb. by rewrite (Hnew b Hb) in Heq.
  - intros (b & Hb & Heq).
    destruct (existsb _ (log_of s k)) eqn:Hex; [done|].
    assert (existsb (λ a, Client.strict_eq_val (field a "id") (field action "id"))
                    (log_of s k) = true) as Hex'.
    { apply existsb_exists. exists b. split; [by apply list_elem_of_In|done]. }
    congruence.
Qed.

Lemma client_follows_add_witness :
  reachable demo ∧
  ∃ s' e,
    on_add_action "s2" a1_again demo = Some (s', [ e ]) ∧
    log_of s' "s2" = [ a1; a1_again ] ∧
    Client.actions (Client.on_event (PStr "A") (payload e)
                      (Client.View (log_of demo "s2") [ PStr "A" ]))
    = [ a1 ].
Proof.
  split; [exact demo_reachable|].
  destruct (client_follows_add demo "s2" a1_again (PStr "A") [ PStr "A" ]
              demo_reachable) as (s' & e & H1 & H2 & _ & H4).
  exists s', e. split; [exact H1|]. split; [exact H2|].
  apply H4. exists a1. split; [by left|reflexivity].
Defined.

(** ** What the client asks for *)

Lemma find_rev_spec {A} (p : A → bool) (l : list A) :
  match List.find p (rev l) with
  | Some a =>
      ∃ i, l !! i = Some a ∧ p a = true ∧
           ∀ j b, (i < j)%nat → l !! j = Some b → p b = false
  | None => ∀ b, b ∈ l → p b = false
  end.
Proof.
  induction l as [|x l IH] using rev_ind; simpl.
  - intros b Hb. by apply elem_of_nil in Hb.
  - rewrite rev_unit. simpl. destruct (p x) eqn:Hx.
    + exists (length l). split; [by apply list_lookup_middle|].
      split; [done|]. intros j b Hj Hb.
      apply lookup_lt_Some in Hb. rewrite length_app in Hb. simpl in Hb. lia.
    + destruct (List.find p (rev l)) as [a|].
      * destruct IH as (i & Hi & Hp & Hlater). exists i.
        split; [by apply lookup_app_l_Some|]. split; [done|].
        intros j b Hj Hb. apply lookup_app_Some in Hb as [Hb|[_ Hb]].
        -- by eapply Hlater.
        -- apply list_lookup_singleton_Some in Hb as [_ <-]. done.
      * intros b Hb. apply elem_of_app in Hb as [Hb|Hb]; [by apply IH|].
        by apply list_elem_of_singleton in Hb as ->.
Qed.

(** X19.  [handleUndo] asks for the latest action of the log that is the
    user's own and not undone, [handleRedo] for the latest that is the
    user's own and undone (which need not be the one undone last); each
    asks for nothing exactly when there is no such action. *)
Theorem candidates_are_latest_own (userId : prim) (l : list obj) :
  match Client.undo_candidate userId l with
  | Some a =>
      ∃ i, l !! i = Some a ∧
           field a "userId" = JPrim userId ∧
           truthy_val (field a "undone") = false ∧
           ∀ j b, (i < j)%nat → l !! j = Some b →
                  field b "userId" = JPrim userId →
                  truthy_val (field b "undone") = true
  | None => ∀ b, b ∈ l → field b "userId" = JPrim userId →
                 truthy_val (field b "undone") = true
  end ∧
  match Client.redo_candidate userId l with
  | Some a =>
      ∃ i, l !! i = Some a ∧
           field a "userId" = JPrim userId ∧
           truthy_val (field a "undone") = true ∧
           ∀ j b, (i < j)%nat → l !! j = Some b →
                  field b "userId" = JPrim userId →
                  truthy_val (field b "undone") = false
  | None => ∀ b, b ∈ l → field b "userId" = JPrim userId →
                 truthy_val (field b "undone") = false
  end.
Proof.
  split.
  - unfold Client.undo_candidate.
    pose proof (find_rev_spec
      (λ action, strict_eq (field action "userId") userId
                 && negb (truthy_val (field action "undone"))) l) as H.
    destruct (List.find _ (rev l)) as [a|].
    + destruct H as (i & Hi & Hp & Hlater). exists i.
      apply andb_true_iff in Hp as [Ho Hu]. apply strict_eq_true in Ho.
      apply negb_true_iff in Hu. repeat split; [done..|].
      intros j b Hj Hb Hob. specialize (Hlater j b Hj Hb).
      apply strict_eq_true in Hob. rewrite Hob in Hlater. simpl in Hlater.
      by apply negb_false_iff in Hlater.
    + intros b Hb Hob. specialize (H b Hb).
      apply strict_eq_true in Hob. rewrite Hob in H. simpl in H.
      by apply negb_false_iff in H.
  - unfold Client.redo_candidate.
    pose proof (find_rev_spec
      (λ action, strict_eq (field action "userId") userId
                 && truthy_val (field action "undone")) l) as H.
    destruct (List.find _ (rev l)) as [a|].
    + destruct H as (i & Hi & Hp & Hlater). exists i.
      apply andb_true_iff in Hp as [Ho Hu]. apply strict_eq_true in Ho.
      repeat split; [done..|].
      intros j b Hj Hb Hob. specialize (Hlater j b Hj Hb).
      apply strict_eq_true in Hob. by rewrite Hob in Hlater.
    + intros b Hb Hob. specialize (H b Hb).
      apply strict_eq_true in Hob. by rewrite Hob in H.
Qed.

(** X20.  The server accepts what [handleUndo] and [handleRedo] ask for:
    when the client's actions are the log of its room, the candidate has a
    primitive id and that id occurs only at the candidate's entry, the
    [undo-action] ([redo-action]) message with the candidate's id and the
    client's user id is not denied; the candidate's [undone] becomes
    [true] ([false]) and the room is told. *)
Theorem candidate_intents_are_accepted (s : server) (k : sid) (me aid : prim)
    (i : nat) (a : obj) :
  log_of s k !! i = Some a →
  field a "id" = JPrim aid →
  only_at (log_of s k) aid i →
  let room_members := members (io_rooms s) (socket_roomId s k) in
  (Client.undo_candidate me (log_of s k) = Some a →
   on_undo_action k aid me s
   = Some (with_entry s k i (set_undone true a),
           [ Emit room_members (action_undone aid me) ])) ∧
  (Client.redo_candidate me (log_of s k) = Some a →
   on_redo_action k aid me s
   = Some (with_entry s k i (set_undone false a),
           [ Emit room_members (action_redone aid me) ])).
Proof.
  intros Ha Hid Honly room_members.
  assert (strict_eq (field a "id") aid = true) as Hid'
    by (by apply strict_eq_true).
  destruct (findIndex_le (λ x, strict_eq (field x "id") aid) _ _ _ Ha Hid')
    as (idx & Hidx & _).
  destruct (findIndex_Some _ _ _ Hidx) as (a0 & Ha0 & Hid0).
  pose proof (Honly _ _ Ha0 Hid0) as ->.
  assert (∀ p, List.find p (rev (log_of s k)) = Some a → p a = true) as Hfind.
  { intros p Hp. by apply find_some in Hp as [_ ?]. }
  unfold on_undo_action, on_redo_action. split; intros Hc.
  - apply Hfind, andb_true_iff in Hc as [Ho _]. apply strict_eq_true in Ho.
    by rewrite (proj1 (gated_gate _ _ _ _ _ _ _ _ _ Hidx Ha) Ho).
  - apply Hfind, andb_true_iff in Hc as [Ho _]. apply strict_eq_true in Ho.
    by rewrite (proj1 (gated_gate _ _ _ _ _ _ _ _ _ Hidx Ha) Ho).
Qed.

Lemma candidate_intents_are_accepted_witness :
  log_of demo "s1" !! 0%nat = Some a1 ∧
  field a1 "id" = JPrim (PStr "a1") ∧
  only_at (log_of demo "s1") (PStr "a1") 0 ∧
  Client.undo_candidate (PStr "A") (log_of demo "s1") = Some a1 ∧
  on_undo_action "s1" (PStr "a1") (PStr "A") demo
  = Some (with_entry demo "s1" 0 (set_undone true a1),
          [ Emit (members (io_rooms demo) (socket_roomId demo "s1"))
                 (action_undone (PStr "a1") (PStr "A")) ]).
Proof.
  split; [reflexivity|]. split; [reflexivity|]. split; [exact only_at_demo|].
  split; [reflexivity|].
  exact (proj1 (candidate_intents_are_accepted demo "s1" (PStr "A") (PStr "a1")
                  0 a1 eq_refl eq_refl only_at_demo) eq_refl).
Defined.

(** X21.  The action [handleCreateAction] builds carries the new id, the
    creator's user id and [undone: false], whatever the draft held under
    those names, and keeps every property of the draft other than these
    and [timestamp]; appended to the local actions it is at once what
    [handleUndo] would undo. *)
Theorem created_action_is_undo_candidate (userId : prim) (newId : string)
    (now : Z) (draft : obj) (l : list obj) :
  let action := Client.create_action userId newId now draft in
  field action "id" = JPrim (PStr newId) ∧
  field action "userId" = JPrim userId ∧
  field action "undone" = JPrim (PBool false) ∧
  (∀ f, f ≠ "id" → f ≠ "userId" → f ≠ "timestamp" → f ≠ "undone" →
        action !! f = draft !! f) ∧
  Client.undo_candidate userId (l ++ [action]) = Some action.
Proof.
  intros action.
  assert (field action "id" = JPrim (PStr newId)) as Hid.
  { unfold action, Client.create_action, field.
    by rewrite !lookup_insert_ne, lookup_insert_eq by done. }
  assert (field action "userId" = JPrim userId) as Ho.
  { unfold action, Client.create_action, field.
    by rewrite !lookup_insert_ne, lookup_insert_eq by done. }
  assert (field action "undone" = JPrim (PBool false)) as Hu.
  { unfold action, Client.create_action, field. by rewrite lookup_insert_eq. }
  split; [done|]. split; [done|]. split; [done|]. split.
  - intros f H1 H2 H3 H4. unfold action, Client.create_action.
    by rewrite !lookup_insert_ne by done.
  - unfold Client.undo_candidate. rewrite rev_unit. simpl.
    rewrite Ho, Hu. simpl. by rewrite bool_decide_eq_true_2.
Qed.

Lemma findIndex_app_new {A} (p : A → bool) (l : list A) (x : A) :
  (∀ y, y ∈ l → p y = false) → p x = true →
  findIndex p (l ++ [x]) = Some (length l).
Proof.
  intros Hl Hx. induction l as [|y l IH]; simpl.
  - by rewrite Hx.
  - rewrite (Hl y) by (by left). rewrite IH; [done|].
    intros z Hz. apply Hl. by right.
Qed.

(** X22.  A user can undo what it has just drawn: from a reachable state
    in which no entry of the room's log has the id of the new action,
    [add-action] followed by [undo-action] with that id and the action's
    own [userId] is served without denial, and the log ends up extended by
    the action with [undone] set. *)
Theorem create_then_undo (s : server) (k : sid) (action : obj)
    (aid owner : prim) :
  reachable s →
  field action "id" = JPrim aid →
  field action "userId" = JPrim owner →
  (∀ b, b ∈ log_of s k → strict_eq (field b "id") aid = false) →
  ∃ s2,
    run [ AddAction k action; UndoAction k aid owner ] s
    = Some (s2,
            [ Emit (members (io_rooms s) (socket_roomId s k) ∖ {[k]})
                   (action_added action);
              Emit (members (io_rooms s) (socket_roomId s k))
                   (action_undone aid owner) ]) ∧
    log_of s2 k = (log_of s k ++ [set_undone true action])%list.
Proof.
  intros Hreach Hid Ho Hnew. destruct (reachable_keys_ok _ Hreach) as [Hsock _].
  simpl. rewrite (on_add_action_eq _ _ _ (Hsock k)).
  set (s1 := Server _ _ _).
  assert (socket_roomId s1 k = socket_roomId s k) as Hrid by done.
  assert (log_of s1 k = (log_of s k ++ [action])%list) as Hlog.
  { unfold log_of. rewrite Hrid. unfold s1. simpl.
    by rewrite log_at_insert, decide_True. }
  assert (findIndex (λ x, strict_eq (field x "id") aid) (log_of s1 k)
          = Some (length (log_of s k))) as Hi.
  { rewrite Hlog. apply findIndex_app_new; [done|]. by apply strict_eq_true. }
  assert (log_of s1 k !! length (log_of s k) = Some action) as Ha
    by (rewrite Hlog; apply list_lookup_middle; done).
  unfold on_undo_action.
  rewrite (proj1 (gated_gate _ _ _ _ _ _ _ _ _ Hi Ha) Ho).
  eexists. split; [by rewrite Hrid|].
  rewrite log_of_with_entry, Hlog.
  rewrite insert_app_r_alt by done. by rewrite Nat.sub_diag.
Qed.

Lemma create_then_undo_witness :
  reachable demo ∧
  field a2 "id" = JPrim (PStr "a2") ∧
  field a2 "userId" = JPrim (PStr "B") ∧
  ∃ s2 out,
    run [ AddAction "s2" a2; UndoAction "s2" (PStr "a2") (PStr "B") ] demo
    = Some (s2, out) ∧
    log_of s2 "s2" = [ a1; set_undone true a2 ].
Proof.
  split; [exact demo_reachable|]. split; [reflexivity|]. split; [reflexivity|].
  destruct (create_then_undo demo "s2" a2 (PStr "a2") (PStr "B")
              demo_reachable eq_refl eq_refl) as (s2 & H1 & H2).
  - intros b Hb. apply list_elem_of_singleton in Hb as ->. reflexivity.
  - eexists s2, _. split; [exact H1|exact H2].
Defined.

(** X23.  The optimistic update is what the server computes: when the
    client's actions are the log of its room, the id occurs in it only at
    the entry the server finds and the client owns that entry, the list
    [handleUpdateAction] sets locally equals the log the server has after
    serving the [update-action] message that [handleUpdateAction] sends. *)
Theorem optimistic_update_matches_server (s : server) (k : sid)
    (actionId me : prim) (data replace : jsval) (idx : nat) (a : obj) :
  findIndex (λ x, strict_eq (field x "id") actionId) (log_of s k) = Some idx →
  log_of s k !! idx = Some a →
  field a "userId" = JPrim me →
  only_at (log_of s k) actionId idx →
  ∃ s' out,
    on_update_action k actionId (Client.update_message_data data replace)
      replace me s = Some (s', out) ∧
    log_of s' k = Client.update_local actionId data replace (log_of s k).
Proof.
  intros Hi Ha Ho Honly.
  destruct (findIndex_Some _ _ _ Hi) as (a0 & Ha0 & Hid).
  rewrite Ha in Ha0. injection Ha0 as <-.
  unfold on_update_action.
  rewrite (proj1 (gated_gate _ _ _ _ _ _ _ _ _ Hi Ha) Ho).
  eexists _, _. split; [reflexivity|].
  rewrite log_of_with_entry. unfold Client.update_local.
  assert ((λ action : obj,
             if negb (strict_eq (field action "id") actionId) then action
             else update_data data replace action) <$> log_of s k
          = (λ action : obj,
               if strict_eq (field action "id") actionId
               then update_data data replace action else action) <$> log_of s k)
    as ->.
  { apply list_fmap_ext. intros j b _.
    by destruct (strict_eq (field b "id") actionId). }
  rewrite (patch_only_at _ _ _ _ _ Honly Ha Hid). f_equal.
  unfold update_data, Client.update_message_data.
  by destruct (truthy_val replace).
Qed.

Lemma optimistic_update_matches_server_witness :
  findIndex (λ x, strict_eq (field x "id") (PStr "a1")) (log_of demo "s1") = Some 0%nat ∧
  log_of demo "s1" !! 0%nat = Some a1 ∧
  field a1 "userId" = JPrim (PStr "A") ∧
  only_at (log_of demo "s1") (PStr "a1") 0 ∧
  ∃ s' out,
    on_update_action "s1" (PStr "a1")
      (Client.update_message_data (JObj {[ "x" := JPrim (PNum 7) ]})
         (JPrim (PBool false)))
      (JPrim (PBool false)) (PStr "A") demo = Some (s', out) ∧
    log_of s' "s1"
    = Client.update_local (PStr "a1") (JObj {[ "x" := JPrim (PNum 7) ]})
        (JPrim (PBool false)) (log_of demo "s1").
Proof.
  split; [reflexivity|]. split; [reflexivity|]. split; [reflexivity|].
  split; [exact only_at_demo|].
  exact (optimistic_update_matches_server demo "s1" (PStr "a1") (PStr "A")
           (JObj {[ "x" := JPrim (PNum 7) ]}) (JPrim (PBool false)) 0 a1
           eq_refl eq_refl eq_refl only_at_demo).
Defined.
